(** * Pong with a Mamdani fuzzy paddle controller (lab9.py)

    A shallow embedding of the physics of [Ball] and [Racket], of the
    agents built on them, and of the fuzzy controller of [FuzzyPlayer],
    followed by the properties established about them. *)

From stdpp Require Import base option list strings gmap.
From Stdlib Require Import ZArith QArith Qminmax Lia Lqa Floats SpecFloat.

Set Warnings "-inexact-float".

Open Scope Z_scope.

(** ** Constants *)

Definition FPS : Z := 30.

(** ** Python numbers

    A speed starts as an [int] and stays one under [*= -1]; the first
    [*= 1.1] turns it into a binary64 [float]. *)

Inductive pynum : Type :=
| PyInt (z : Z)
| PyFloat (f : float).

(** [float(z)]: round to nearest even, [None] for the OverflowError of an
    integer too large for a binary64. *)
Definition float_of_int (z : Z) : option float :=
  let f := SF2Prim (binary_normalize prec emax z 0 false) in
  if PrimFloat.is_infinity f then None else Some f.

(** [n * -1]: an [int] stays an [int], a [float] is multiplied by [-1.0]. *)
Definition pyneg (n : pynum) : pynum :=
  match n with
  | PyInt z => PyInt (z * -1)
  | PyFloat f => PyFloat (PrimFloat.mul f (-1)%float)
  end.

(** [n * 1.1]: always a [float]; the [int] operand is converted first. *)
Definition pyscale (n : pynum) : option pynum :=
  match n with
  | PyInt z => f ← float_of_int z; Some (PyFloat (PrimFloat.mul f 1.1%float))
  | PyFloat f => Some (PyFloat (PrimFloat.mul f 1.1%float))
  end.

(** Nearest integer to [m * 2 ^ e], ties to the even one. *)
Definition round_half_even (m e : Z) : Z :=
  if 0 <=? e then m * 2 ^ e
  else
    let d := 2 ^ (- e) in
    let q := m / d in
    let r := m mod d in
    if 2 * r <? d then q
    else if d <? 2 * r then q + 1
    else if Z.even q then q else q + 1.

(** [round(n)]: the identity on [int]; on a [float] the nearest integer,
    ties to even, and an exception ([None]) on an infinity or a NaN. *)
Definition pyround (n : pynum) : option Z :=
  match n with
  | PyInt z => Some z
  | PyFloat f =>
      match Prim2SF f with
      | S754_zero _ => Some 0
      | S754_finite s m e =>
          let k := round_half_even (Z.pos m) e in
          Some (if s then - k else k)
      | S754_infinity _ => None
      | S754_nan => None
      end
  end.

(** ** pygame.Rect *)

Module Rect.

Record t : Type := mk { x : Z; y : Z; width : Z; height : Z }.

Definition left (r : t) : Z := x r.
Definition right (r : t) : Z := x r + width r.
Definition top (r : t) : Z := y r.
Definition bottom (r : t) : Z := y r + height r.
Definition centerx (r : t) : Z := x r + Z.quot (width r) 2.
Definition centery (r : t) : Z := y r + Z.quot (height r) 2.

Definition set_x (v : Z) (r : t) : t := mk v (y r) (width r) (height r).
Definition set_y (v : Z) (r : t) : t := mk (x r) v (width r) (height r).

(** Two rectangles collide when both have an area and their extents
    overlap strictly on both axes. *)
Definition colliderect (a b : t) : bool :=
  negb ((width a =? 0) || (height a =? 0) || (width b =? 0) || (height b =? 0))
  && (Z.min (x a) (x a + width a) <? Z.max (x b) (x b + width b))
  && (Z.min (y a) (y a + height a) <? Z.max (y b) (y b + height b))
  && (Z.min (x b) (x b + width b) <? Z.max (x a) (x a + width a))
  && (Z.min (y b) (y b + height b) <? Z.max (y a) (y a + height a)).

End Rect.

(** ** Board: only the size of its surface matters to the physics. *)

Module Board.

Record t : Type := mk { get_width : Z; get_height : Z }.

End Board.

Definition rgb : Type := (Z * Z * Z)%type.

(** ** Racket *)

Module Racket.

Record t : Type := mk {
  width : Z;
  height : Z;
  color : rgb;
  rect : Rect.t;
  max_speed : Z
}.

Definition init (x y width height : Z) (color : rgb) (max_speed : Z) : t :=
  mk width height color (Rect.mk x y width height) max_speed.

(** [Racket(x, y)] with the default size, colour and speed. *)
Definition default (x y : Z) : t := init x y 80 20 (255, 255, 255) 10.

Definition delta (r : t) (x : Z) (board : Board.t) : Z :=
  let delta := x - Rect.x (rect r) in
  let delta := if max_speed r <? delta then max_speed r else delta in
  let delta := if delta <? - max_speed r then - max_speed r else delta in
  let delta := if Rect.x (rect r) + delta <? 0 then 0 else delta in
  let delta :=
    if Board.get_width board <? Rect.x (rect r) + width r + delta
    then 0 else delta in
  delta.

Definition move (r : t) (x : Z) (board : Board.t) : t :=
  mk (width r) (height r) (color r)
     (Rect.set_x (Rect.x (rect r) + delta r x board) (rect r))
     (max_speed r).

End Racket.

(** ** Ball *)

Module Ball.

Record t : Type := mk {
  width : Z;
  height : Z;
  color : rgb;
  rect : Rect.t;
  x_speed : pynum;
  y_speed : pynum;
  start_speed : Z;
  start_x : Z;
  start_y : Z;
  start_color : rgb;
  last_collision : Z
}.

Definition init (x y radius : Z) (color : rgb) (speed : Z) : t :=
  mk radius radius color (Rect.mk x y radius radius)
     (PyInt speed) (PyInt speed) speed x y color 0.

(** [Ball(x, y)] with the default radius, colour and speed. *)
Definition default (x y : Z) : t := init x y 20 (255, 10, 0) 3.

Definition set_color (c : rgb) (b : t) : t :=
  mk (width b) (height b) c (rect b) (x_speed b) (y_speed b)
     (start_speed b) (start_x b) (start_y b) (start_color b) (last_collision b).

Definition set_rect (r : Rect.t) (b : t) : t :=
  mk (width b) (height b) (color b) r (x_speed b) (y_speed b)
     (start_speed b) (start_x b) (start_y b) (start_color b) (last_collision b).

Definition set_x_speed (v : pynum) (b : t) : t :=
  mk (width b) (height b) (color b) (rect b) v (y_speed b)
     (start_speed b) (start_x b) (start_y b) (start_color b) (last_collision b).

Definition set_y_speed (v : pynum) (b : t) : t :=
  mk (width b) (height b) (color b) (rect b) (x_speed b) v
     (start_speed b) (start_x b) (start_y b) (start_color b) (last_collision b).

Definition set_last_collision (v : Z) (b : t) : t :=
  mk (width b) (height b) (color b) (rect b) (x_speed b) (y_speed b)
     (start_speed b) (start_x b) (start_y b) (start_color b) v.

Definition bounce_y (b : t) : t := set_y_speed (pyneg (y_speed b)) b.

Definition bounce_x (b : t) : t := set_x_speed (pyneg (x_speed b)) b.

(** The green channel grows by 10 while it is below 255. *)
Definition power_color (c : rgb) : rgb :=
  let '(r, g, bl) := c in
  (r, (if g <? 255 then g + 10 else g), bl).

(** A colour that pygame accepts: three channels between 0 and 255. *)
Definition valid_color (c : rgb) : bool :=
  let '(r, g, bl) := c in
  (0 <=? r) && (r <=? 255) && (0 <=? g) && (g <=? 255)
  && (0 <=? bl) && (bl <=? 255).

(** The new colour is assigned first; [pygame.draw.ellipse] then raises a
    ValueError ([None]) on a colour it does not accept, before any speed
    is scaled. *)
Definition bounce_y_power (b : t) : option t :=
  let b := set_color (power_color (color b)) b in
  if valid_color (color b) then
    vx ← pyscale (x_speed b);
    let b := set_x_speed vx b in
    vy ← pyscale (y_speed b);
    let b := set_y_speed vy b in
    Some (bounce_y b)
  else None.

Definition reset (b : t) : t :=
  let b := set_rect (Rect.set_x (start_x b) (rect b)) b in
  let b := set_rect (Rect.set_y (start_y b) (rect b)) b in
  let b := set_x_speed (PyInt (start_speed b)) b in
  let b := set_y_speed (PyInt (start_speed b)) b in
  let b := set_color (start_color b) b in
  bounce_y b.

(** First statements of [move]: both coordinates advance by the rounded
    speeds; a rounding that raises aborts the move. *)
Definition advance (b : t) : option t :=
  dx ← pyround (x_speed b);
  let b := set_rect (Rect.set_x (Rect.x (rect b) + dx) (rect b)) b in
  dy ← pyround (y_speed b);
  Some (set_rect (Rect.set_y (Rect.y (rect b) + dy) (rect b)) b).

Definition out_x (b : t) (board : Board.t) : bool :=
  (Rect.x (rect b) <? 0)
  || (Board.get_width board - Rect.width (rect b) <? Rect.x (rect b)).

Definition out_y (b : t) (board : Board.t) : bool :=
  (Rect.y (rect b) <? 0)
  || (Board.get_height board - Rect.height (rect b) <? Rect.y (rect b)).

(** [move] up to the reading of the clock: advance, bounce off the side
    walls, reset beyond the top or the bottom. *)
Definition move_walls (b : t) (board : Board.t) : option t :=
  b ← advance b;
  let b := if out_x b board then bounce_x b else b in
  let b := if out_y b board then reset b else b in
  Some b.

(** The ball lies in an outer quarter of the racket. *)
Definition edge_hit (b : t) (racket : Racket.t) : bool :=
  let r := Racket.rect racket in
  (Rect.right (rect b) <? Rect.left r + Rect.width r / 4)
  || (Rect.right r - Rect.width r / 4 <? Rect.left (rect b)).

(** Body of the loop over the rackets for a racket the ball collides
    with: the collision is stamped with the clock reading [ticks], then
    the ball bounces, with power on an edge hit. *)
Definition hit (ticks : Z) (racket : Racket.t) (b : t) : option t :=
  let b := set_last_collision ticks b in
  if edge_hit b racket then bounce_y_power b else Some (bounce_y b).

(** The loop over the rackets. [get_ticks k] is the value of the [k]-th
    reading of [pygame.time.get_ticks()] made by this call of [move]. *)
Fixpoint move_rackets (get_ticks : nat → Z) (k : nat) (b : t)
    (args : list Racket.t) : option t :=
  match args with
  | [] => Some b
  | racket :: args =>
      if Rect.colliderect (rect b) (Racket.rect racket) then
        b ← hit (get_ticks k) racket b;
        move_rackets get_ticks (S k) b args
      else move_rackets get_ticks k b args
  end.

Definition move (b : t) (board : Board.t) (get_ticks : nat → Z)
    (args : list Racket.t) : option t :=
  b ← move_walls b board;
  let timestamp := get_ticks 0%nat in
  if timestamp - last_collision b <? FPS * 4 then Some b
  else move_rackets get_ticks 1%nat b args.

End Ball.

(** ** Players *)

Module Player.

Record t : Type := mk {
  ball : Ball.t;
  racket : Racket.t;
  board : Board.t
}.

Definition move (p : t) (x : Z) : t :=
  mk (ball p) (Racket.move (racket p) x (board p)) (board p).

End Player.

Module NaiveOponent.

Definition act (p : Player.t) (x_diff y_diff : Z) : Player.t :=
  let x_cent := Rect.centerx (Ball.rect (Player.ball p)) in
  Player.move p x_cent.

End NaiveOponent.

Module HumanPlayer.

Definition move_manual (p : Player.t) (x : Z) : Player.t := Player.move p x.

End HumanPlayer.

(** ** Fuzzy sets over the rationals

    Membership degrees, firing strengths and the crisp output are taken in
    exact rational arithmetic. *)

Open Scope Q_scope.

Definition Qltb (a b : Q) : bool := negb (Qle_bool b a).

Definition abc : Type := (Q * Q * Q)%type.

(** [fuzz.trimf(universe, [a, b, c])], the triangular membership function
    of scikit-fuzzy, as a function of the crisp value: 1 at the peak [b],
    linear on the ramps between the feet [a], [c] and the peak, 0
    elsewhere; a ramp of zero width ([a = b] or [b = c]) contributes
    nothing. All breakpoints used below are grid points of the universes,
    so the interpolation between grid points is the triangle itself. *)
Definition trimf (p : abc) (x : Q) : Q :=
  let '(a, b, c) := p in
  if Qeq_bool x b then 1
  else if Qltb a x && Qltb x b then (x - a) / (b - a)
  else if Qltb b x && Qltb x c then (c - x) / (c - b)
  else 0.

Definition sumQ (l : list Q) : Q := foldr Qplus 0 l.

Definition maxQ (l : list Q) : Q := foldr Qmax 0 l.

(** The terms of the three linguistic variables of [FuzzyPlayer.__init__]. *)

Definition edge : Q := 400.
Definition middle_edge : Q := 30.

Module x_diff.

Inductive term : Type := far_left | left | center | right | far_right.

Definition label : string := "x_dist".

(** [range(-400, 401)] *)
Definition universe : list Z := seqZ (-400) 801.
Definition lo : Q := -400.
Definition hi : Q := 400.

Definition terms : list term := [far_left; left; center; right; far_right].

Definition mf (t : term) : abc :=
  match t with
  | far_left => (- edge, - edge, - middle_edge + 10)
  | left => (- middle_edge, - middle_edge / 2, 0)
  | center => (- middle_edge / 2, 0, middle_edge / 2)
  | right => (0, middle_edge / 2, middle_edge)
  | far_right => (middle_edge - 10, edge, edge)
  end.

(** Sum of the membership degrees of a crisp value over all terms. *)
Definition coverage (v : Q) : Q := sumQ (map (λ t, trimf (mf t) v) terms).

End x_diff.

Module y_diff.

Inductive term : Type := above | center | below.

Definition label : string := "y_dist".

(** [range(-200, 201)] *)
Definition universe : list Z := seqZ (-200) 401.
Definition lo : Q := -200.
Definition hi : Q := 200.

Definition terms : list term := [above; center; below].

Definition mf (t : term) : abc :=
  match t with
  | above => (-200, -100, 0)
  | center => (-100, 0, 100)
  | below => (0, 100, 200)
  end.

Definition coverage (v : Q) : Q := sumQ (map (λ t, trimf (mf t) v) terms).

End y_diff.

Module velocity.

Inductive term : Type := fast_left | slow_left | stop | slow_right | fast_right.

#[global] Instance term_eq_dec : EqDecision term.
Proof. solve_decision. Defined.

Definition label : string := "velocity".

(** [range(-10, 11)] *)
Definition universe : list Z := seqZ (-10) 21.

Definition terms : list term :=
  [fast_left; slow_left; stop; slow_right; fast_right].

Definition mf (t : term) : abc :=
  match t with
  | fast_left => (-10, -10, -10)
  | slow_left => (-9, -9, -3)
  | stop => (-3, 0, 3)
  | slow_right => (3, 9, 9)
  | fast_right => (10, 10, 10)
  end.

End velocity.

(** ** Rules and the inference engine *)

Module fuzzcontrol.

(** Antecedents: terms of the inputs joined by [&] and [|]. *)
Inductive antecedent : Type :=
| X (t : x_diff.term)
| Y (t : y_diff.term)
| And (p q : antecedent)
| Or (p q : antecedent).

Record Rule : Type := mkRule {
  rule_antecedent : antecedent;
  rule_consequent : velocity.term
}.

(** Modelled from the spec: the engine behind [ControlSystemSimulation]
    (scikit-fuzzy) is not part of src/. Strength of an antecedent at a
    crisp observation: AND is the minimum, OR the maximum. *)
Fixpoint strength (x y : Q) (a : antecedent) : Q :=
  match a with
  | X t => trimf (x_diff.mf t) x
  | Y t => trimf (y_diff.mf t) y
  | And p q => Qmin (strength x y p) (strength x y q)
  | Or p q => Qmax (strength x y p) (strength x y q)
  end.

(** Modelled from the spec: the firing strength of an output term is the
    maximum over the rules whose consequent is that term. *)
Definition firing (rules : list Rule) (x y : Q) (t : velocity.term) : Q :=
  maxQ (map (λ r, strength x y (rule_antecedent r))
            (filter (λ r, rule_consequent r = t) rules)).

(** Modelled from the spec: each output term is clipped at its firing
    strength and the clipped terms are joined by the pointwise maximum. *)
Definition aggregate (rules : list Rule) (x y : Q) (u : Q) : Q :=
  maxQ (map (λ t, Qmin (trimf (velocity.mf t) u) (firing rules x y t))
            velocity.terms).

Definition area (mu : Q → Q) : Q :=
  sumQ (map (λ u, mu (inject_Z u)) velocity.universe).

Definition moment (mu : Q → Q) : Q :=
  sumQ (map (λ u, inject_Z u * mu (inject_Z u)) velocity.universe).

(** Modelled from the spec: the centroid over the grid of the output
    universe, undefined for an aggregate set that is empty on the grid. *)
Definition centroid (mu : Q → Q) : option Q :=
  if Qeq_bool (area mu) 0 then None else Some (moment mu / area mu).

Definition defuzz (rules : list Rule) (x y : Q) : option Q :=
  centroid (aggregate rules x y).

Inductive exn : Type :=
| KeyError (key : string)
| ValueError.

Inductive outcome (A : Type) : Type :=
| Ok (a : A)
| Raise (e : exn).
Arguments Ok {A} a.
Arguments Raise {A} e.

Definition bind {A B : Type} (m : outcome A) (k : A → outcome B) : outcome B :=
  match m with
  | Ok a => k a
  | Raise e => Raise e
  end.

Definition value {A S : Type} (m : outcome (A * S)) : option A :=
  match m with
  | Ok (a, _) => Some a
  | Raise _ => None
  end.

Definition state {A S : Type} (m : outcome (A * S)) : option S :=
  match m with
  | Ok (_, s) => Some s
  | Raise _ => None
  end.

(** The simulation object: the rule base with the mutable stores of the
    crisp inputs and outputs, keyed by the labels of the variables. *)
Record ControlSystemSimulation : Type := mkSim {
  ctrl : list Rule;
  input : gmap string Q;
  output : gmap string Q
}.

Definition ControlSystem (rules : list Rule) : list Rule := rules.

Definition new (ctrl : list Rule) : ControlSystemSimulation := mkSim ctrl ∅ ∅.

Definition bounds (key : string) : option (Q * Q) :=
  if decide (key = x_diff.label) then Some (x_diff.lo, x_diff.hi)
  else if decide (key = y_diff.label) then Some (y_diff.lo, y_diff.hi)
  else None.

Definition clip (lohi : Q * Q) (v : Q) : Q := Qmax (fst lohi) (Qmin (snd lohi) v).

(** Modelled from the spec: [sim.input[key] = v] stores the value clamped
    to the bounds of the universe of the antecedent labelled [key]. *)
Definition set_input (key : string) (v : Q) (sim : ControlSystemSimulation)
    : outcome ControlSystemSimulation :=
  match bounds key with
  | Some lohi => Ok (mkSim (ctrl sim) (<[key := clip lohi v]> (input sim)) (output sim))
  | None => Raise ValueError
  end.

(** Modelled from the spec: [sim.compute()] fuzzifies the stored inputs,
    evaluates and aggregates the rules and stores the centroid under the
    label of the consequent; an empty aggregate leaves no output there. *)
Definition compute (sim : ControlSystemSimulation) : outcome ControlSystemSimulation :=
  match input sim !! x_diff.label, input sim !! y_diff.label with
  | Some x, Some y =>
      Ok (mkSim (ctrl sim) (input sim)
            (match defuzz (ctrl sim) x y with
             | Some v => <[velocity.label := v]> (output sim)
             | None => delete velocity.label (output sim)
             end))
  | _, _ => Raise ValueError
  end.

(** Modelled from the spec: the operation [infer] of the inference
    engine, from a crisp observation to the crisp velocity: clamp,
    fuzzify, evaluate, aggregate, take the centroid, and fall back to 0
    when the aggregate is empty. *)
Definition infer (rules : list Rule) (x_diff y_diff : Z) : Q :=
  default 0 (defuzz rules
               (clip (x_diff.lo, x_diff.hi) (inject_Z x_diff))
               (clip (y_diff.lo, y_diff.hi) (inject_Z y_diff))).

(** [sim.output[key]] *)
Definition get_output (key : string) (sim : ControlSystemSimulation) : outcome Q :=
  match output sim !! key with
  | Some v => Ok v
  | None => Raise (KeyError key)
  end.

End fuzzcontrol.

(** ** FuzzyPlayer *)

Module FuzzyPlayer.

Import fuzzcontrol.

Definition rules : list Rule := [
  mkRule (And (X x_diff.left) (Or (Y y_diff.above) (Y y_diff.center))) velocity.fast_right;
  mkRule (And (X x_diff.right) (Or (Y y_diff.above) (Y y_diff.center))) velocity.fast_left;
  mkRule (X x_diff.far_left) velocity.fast_right;
  mkRule (X x_diff.left) velocity.slow_right;
  mkRule (X x_diff.center) velocity.stop;
  mkRule (X x_diff.right) velocity.slow_left;
  mkRule (X x_diff.far_right) velocity.fast_left
].

Record t : Type := mk {
  player : Player.t;
  racket_controller : list Rule;
  racket_simulation : ControlSystemSimulation
}.

Definition init (racket : Racket.t) (ball : Ball.t) (board : Board.t) : t :=
  let racket_controller := ControlSystem rules in
  mk (Player.mk ball racket board) racket_controller (new racket_controller).

Definition make_decision (self : t) (x_diff y_diff : Z) : outcome (Q * t) :=
  bind (set_input "x_dist" (inject_Z x_diff) (racket_simulation self)) (λ sim,
  bind (set_input "y_dist" (inject_Z y_diff) sim) (λ sim,
  bind (compute sim) (λ sim,
  let self := mk (player self) (racket_controller self) sim in
  match get_output "velocity" sim with
  | Ok velocity => Ok (velocity, self)
  | Raise _ => Ok (0, self)
  end))).

(** The player after a sequence of decisions whose results are dropped. *)
Fixpoint decisions (self : t) (observations : list (Z * Z)) : outcome t :=
  match observations with
  | [] => Ok self
  | (x_diff, y_diff) :: observations =>
      bind (make_decision self x_diff y_diff) (λ r, decisions (snd r) observations)
  end.

End FuzzyPlayer.

(** ** Mirror images

    Reflection about 0 of the terms of [x_diff] and [velocity], and of the
    antecedents and rules built on them. *)

Module mirror.

Definition point (p : abc) : abc := let '(a, b, c) := p in (- c, - b, - a).

Definition x_term (t : x_diff.term) : x_diff.term :=
  match t with
  | x_diff.far_left => x_diff.far_right
  | x_diff.left => x_diff.right
  | x_diff.center => x_diff.center
  | x_diff.right => x_diff.left
  | x_diff.far_right => x_diff.far_left
  end.

Definition v_term (t : velocity.term) : velocity.term :=
  match t with
  | velocity.fast_left => velocity.fast_right
  | velocity.slow_left => velocity.slow_right
  | velocity.stop => velocity.stop
  | velocity.slow_right => velocity.slow_left
  | velocity.fast_right => velocity.fast_left
  end.

Fixpoint antecedent (a : fuzzcontrol.antecedent) : fuzzcontrol.antecedent :=
  match a with
  | fuzzcontrol.X t => fuzzcontrol.X (x_term t)
  | fuzzcontrol.Y t => fuzzcontrol.Y t
  | fuzzcontrol.And p q => fuzzcontrol.And (antecedent p) (antecedent q)
  | fuzzcontrol.Or p q => fuzzcontrol.Or (antecedent p) (antecedent q)
  end.

Definition rule (r : fuzzcontrol.Rule) : fuzzcontrol.Rule :=
  fuzzcontrol.mkRule (antecedent (fuzzcontrol.rule_antecedent r))
    (v_term (fuzzcontrol.rule_consequent r)).

End mirror.

(** ** PongGame

    The game with its event handling and one frame of its loop, for the
    agents whose [act] stays within integer arithmetic. *)

Inductive key : Type := K_ESCAPE | K_LEFT | K_RIGHT | K_other.

Inductive event : Type :=
| QUIT
| KEYDOWN (k : key)
| other_event.

Module PongGame.

(** The player classes handed to the constructor. *)
Inductive agent : Type := Naive | Human.

(** The game owns the board, the ball and both paddles; a player is a
    view of the ball, one paddle and the board. *)
Record t : Type := mk {
  board : Board.t;
  ball : Ball.t;
  opponent_paddle : Racket.t;
  oponent : agent;
  player_paddle : Racket.t;
  player : agent
}.

Definition init (width height : Z) (player1 player2 : agent) : t :=
  mk (Board.mk width height)
     (Ball.default (width / 2) (height / 2))
     (Racket.default (width / 2) 0) player1
     (Racket.default (width / 2) (height - 20)) player2.

Definition set_ball (b : Ball.t) (g : t) : t :=
  mk (board g) b (opponent_paddle g) (oponent g) (player_paddle g) (player g).

Definition set_opponent_paddle (r : Racket.t) (g : t) : t :=
  mk (board g) (ball g) r (oponent g) (player_paddle g) (player g).

Definition set_player_paddle (r : Racket.t) (g : t) : t :=
  mk (board g) (ball g) (opponent_paddle g) (oponent g) r (player g).

(** [move_manual] of a player: only [HumanPlayer] overrides the inherited
    method, which does nothing. *)
Definition move_manual (a : agent) (p : Player.t) (x : Z) : Player.t :=
  match a with
  | Human => HumanPlayer.move_manual p x
  | Naive => p
  end.

(** [act] of a player: [NaiveOponent] overrides the inherited method,
    which does nothing. *)
Definition act (a : agent) (p : Player.t) (x_diff y_diff : Z) : Player.t :=
  match a with
  | Naive => NaiveOponent.act p x_diff y_diff
  | Human => p
  end.

Definition quits (e : event) : bool :=
  match e with
  | QUIT => true
  | KEYDOWN K_ESCAPE => true
  | _ => false
  end.

(** The loop over the pending events: [true] at the first one that quits. *)
Fixpoint quit_requested (events : list event) : bool :=
  match events with
  | [] => false
  | e :: events => if quits e then true else quit_requested events
  end.

Definition player_move_manual (g : t) (x : Z) : t :=
  let p := Player.mk (ball g) (player_paddle g) (board g) in
  set_player_paddle (Player.racket (move_manual (player g) p x)) g.

(** [handle_events]: the result tells whether the game quits; otherwise
    the pressed keys steer the player, the left key first. *)
Definition handle_events (g : t) (events : list event) (keys : key → bool)
    : bool * t :=
  if quit_requested events then (true, g)
  else if keys K_LEFT then (false, player_move_manual g 0)
  else if keys K_RIGHT
       then (false, player_move_manual g (Board.get_width (board g)))
  else (false, g).

(** Body of the loop of [run] after the events: the ball moves against
    the player's and the opponent's paddle, then both agents act on their
    observation of the ball. *)
Definition tick (g : t) (get_ticks : nat → Z) : option t :=
  b ← Ball.move (ball g) (board g) get_ticks
        [player_paddle g; opponent_paddle g];
  let g := set_ball b g in
  let p := Player.mk (ball g) (opponent_paddle g) (board g) in
  let p := act (oponent g) p
             (Rect.centerx (Racket.rect (Player.racket p))
              - Rect.centerx (Ball.rect (ball g)))
             (Rect.centery (Racket.rect (Player.racket p))
              - Rect.centery (Ball.rect (ball g))) in
  let g := set_opponent_paddle (Player.racket p) g in
  let p := Player.mk (ball g) (player_paddle g) (board g) in
  let p := act (player g) p
             (Rect.centerx (Racket.rect (Player.racket p))
              - Rect.centerx (Ball.rect (ball g)))
             (Rect.centery (Racket.rect (Player.racket p))
              - Rect.centery (Ball.rect (ball g))) in
  Some (set_player_paddle (Player.racket p) g).

(** What one pass of the loop reads from the outside: the pending events,
    the pressed keys and the clock. *)
Record frame : Type := mkFrame {
  events : list event;
  keys : key → bool;
  get_ticks : nat → Z
}.

(** [run] over the frames given: it ends at the first frame that quits,
    and [None] stands for an exception raised by the ball. *)
Fixpoint run (g : t) (frames : list frame) : option t :=
  match frames with
  | [] => Some g
  | f :: frames =>
      let (quit, g) := handle_events g (events f) (keys f) in
      if quit then Some g
      else g ← tick g (get_ticks f); run g frames
  end.

End PongGame.

(** ** Quantities that the invariants are stated on *)

(** The fields of a ball that are set once, by its constructor. *)
Definition ball_setup (b : Ball.t) : Z * Z * Z * Z * Z * Z * Z * rgb :=
  (Ball.width b, Ball.height b,
   Rect.width (Ball.rect b), Rect.height (Ball.rect b),
   Ball.start_x b, Ball.start_y b, Ball.start_speed b, Ball.start_color b).

(** Everything of a racket but the x of its rect. *)
Definition racket_setup (r : Racket.t) : Z * Z * rgb * Z * Z * Z * Z :=
  (Racket.width r, Racket.height r, Racket.color r,
   Rect.y (Racket.rect r), Rect.width (Racket.rect r),
   Rect.height (Racket.rect r), Racket.max_speed r).

(** The racket lies between the side walls of the board. *)
Definition racket_on_board (r : Racket.t) (board : Board.t) : Prop :=
  (0 <= Rect.x (Racket.rect r) <= Board.get_width board - Racket.width r)%Z.

(** The ball lies between the top and the bottom of the board. *)
Definition ball_between_rackets (b : Ball.t) (board : Board.t) : Prop :=
  (0 <= Rect.y (Ball.rect b)
   <= Board.get_height board - Rect.height (Ball.rect b))%Z.

(** Both paddles lie between the side walls and the ball between the
    top and the bottom. *)
Definition game_on_board (g : PongGame.t) : Prop :=
  racket_on_board (PongGame.player_paddle g) (PongGame.board g)
  ∧ racket_on_board (PongGame.opponent_paddle g) (PongGame.board g)
  ∧ ball_between_rackets (PongGame.ball g) (PongGame.board g).

(** What the constructor of the game fixed. *)
Definition game_setup (g : PongGame.t) :=
  (PongGame.board g, PongGame.oponent g, PongGame.player g,
   racket_setup (PongGame.opponent_paddle g),
   racket_setup (PongGame.player_paddle g),
   ball_setup (PongGame.ball g)).

(** The game after the events and keys of the frames given, while none
    of them quits and with the ball left aside. *)
Definition steer (g : PongGame.t) (frames : list PongGame.frame) : PongGame.t :=
  foldl (λ g f, snd (PongGame.handle_events g (PongGame.events f) (PongGame.keys f)))
        g frames.

(** * Properties *)

Open Scope Z_scope.

(** Case analysis on an integer comparison none of whose operands is
    itself a conditional, so that nested tests are split inside out. *)
Ltac case_ltb :=
  match goal with
  | |- context [?a <? ?b] =>
      lazymatch a with
      | context [if _ then _ else _] => fail
      | _ => lazymatch b with
             | context [if _ then _ else _] => fail
             | _ => destruct (Z.ltb_spec a b)
             end
      end
  end.

(** ** Racket.move *)

Lemma racket_delta_clamp (r : Racket.t) (x : Z) (board : Board.t) :
  let c := Z.max (- Racket.max_speed r)
             (Z.min (Racket.max_speed r) (x - Rect.x (Racket.rect r))) in
  Racket.delta r x board =
    if (Rect.x (Racket.rect r) + c <? 0)
       || (Board.get_width board <? Rect.x (Racket.rect r) + Racket.width r + c)
    then 0 else c.
Proof.
  unfold Racket.delta. cbv zeta. repeat case_ltb; simpl; lia.
Qed.

(** C4. For every target and every paddle, [Racket.move] adds to the
    paddle's x a displacement that is the difference to the target clamped
    to [-max_speed, max_speed], or 0 when the clamped displacement would
    put the left edge below 0 or the right edge beyond the board width.
    With a non-negative [max_speed] the clamped value lies in that interval
    and the displacement applied is at most [max_speed] in magnitude; a
    paddle inside [0, board width - width] stays inside it. *)
Theorem racket_move_clamped_fail_closed
    (r : Racket.t) (x : Z) (board : Board.t) :
  let x0 := Rect.x (Racket.rect r) in
  let x1 := Rect.x (Racket.rect (Racket.move r x board)) in
  let c := Z.max (- Racket.max_speed r) (Z.min (Racket.max_speed r) (x - x0)) in
  let d := if (x0 + c <? 0) || (Board.get_width board <? x0 + Racket.width r + c)
           then 0 else c in
  x1 = x0 + d
  ∧ Racket.width (Racket.move r x board) = Racket.width r
  ∧ Racket.max_speed (Racket.move r x board) = Racket.max_speed r
  ∧ (0 <= Racket.max_speed r →
     - Racket.max_speed r <= c <= Racket.max_speed r
     ∧ Z.abs (x1 - x0) <= Racket.max_speed r)
  ∧ (0 <= x0 <= Board.get_width board - Racket.width r →
     0 <= x1 <= Board.get_width board - Racket.width r).
Proof.
  intros x0 x1 c d.
  assert (Hd : Racket.delta r x board = d) by apply racket_delta_clamp.
  assert (Hx : x1 = x0 + d).
  { subst x1. unfold Racket.move. simpl. now rewrite Hd. }
  split; [exact Hx|]. split; [reflexivity|]. split; [reflexivity|].
  rewrite Hx. clear Hx Hd. subst d.
  destruct (Z.ltb_spec (x0 + c) 0);
    destruct (Z.ltb_spec (Board.get_width board) (x0 + Racket.width r + c));
    simpl; subst c; lia.
Qed.

Lemma racket_move_clamped_fail_closed_witness :
  let r := Racket.default 715 380 in
  let board := Board.mk 800 400 in
  Rect.x (Racket.rect (Racket.move r 800 board)) = 715
  ∧ Z.abs (Rect.x (Racket.rect (Racket.move r 0 board)) - 715) <= 10
  ∧ 0 <= Rect.x (Racket.rect (Racket.move r 0 board)) <= 800 - 80.
Proof.
  split; [|split].
  - apply (racket_move_clamped_fail_closed (Racket.default 715 380) 800
             (Board.mk 800 400)).
  - apply (racket_move_clamped_fail_closed (Racket.default 715 380) 0
             (Board.mk 800 400)). simpl. lia.
  - apply (racket_move_clamped_fail_closed (Racket.default 715 380) 0
             (Board.mk 800 400)). simpl. lia.
Defined.

(** ** NaiveOponent.act *)

(** C10. [NaiveOponent.act] does not depend on its two arguments: whatever
    the observation, it moves the paddle towards the current centre x of
    the ball. *)
Theorem naive_act_ignores_observation
    (p : Player.t) (x_diff y_diff x_diff' y_diff' : Z) :
  NaiveOponent.act p x_diff y_diff = NaiveOponent.act p x_diff' y_diff'
  ∧ NaiveOponent.act p x_diff y_diff
    = Player.move p (Rect.centerx (Ball.rect (Player.ball p))).
Proof. split; reflexivity. Qed.

(** ** Ball *)

Section BallFacts.

Import Ball.

Lemma advance_frame (b ba : Ball.t) :
  advance b = Some ba →
  last_collision ba = last_collision b
  ∧ x_speed ba = x_speed b ∧ y_speed ba = y_speed b
  ∧ color ba = color b
  ∧ start_x ba = start_x b ∧ start_y ba = start_y b
  ∧ start_speed ba = start_speed b ∧ start_color ba = start_color b
  ∧ Rect.width (rect ba) = Rect.width (rect b)
  ∧ Rect.height (rect ba) = Rect.height (rect b).
Proof.
  unfold advance. intros H.
  destruct (pyround (x_speed b)) as [dx|]; simpl in H; [|discriminate].
  destruct (pyround (y_speed b)) as [dy|]; simpl in H; [|discriminate].
  injection H as <-. simpl. repeat split.
Qed.

Lemma move_walls_last_collision (b b1 : Ball.t) (board : Board.t) :
  move_walls b board = Some b1 → last_collision b1 = last_collision b.
Proof.
  unfold move_walls. intros H.
  destruct (advance b) as [ba|] eqn:Ha; simpl in H; [|discriminate].
  injection H as <-. apply advance_frame in Ha as (Hl & _).
  destruct (out_x ba board); destruct (out_y _ board); simpl; exact Hl.
Qed.

Lemma bounce_y_power_frame (b b' : Ball.t) :
  bounce_y_power b = Some b' →
  rect b' = rect b ∧ last_collision b' = last_collision b
  ∧ color b' = power_color (color b)
  ∧ pyscale (x_speed b) = Some (x_speed b')
  ∧ ∃ vy, pyscale (y_speed b) = Some vy ∧ y_speed b' = pyneg vy.
Proof.
  unfold bounce_y_power. simpl. intros H.
  destruct (valid_color (power_color (color b))); [|discriminate].
  destruct (pyscale (x_speed b)) as [vx|]; simpl in H; [|discriminate].
  destruct (pyscale (y_speed b)) as [vy|]; simpl in H; [|discriminate].
  injection H as <-. simpl. repeat split. exists vy. split; reflexivity.
Qed.

Lemma hit_frame (t : Z) (racket : Racket.t) (b b' : Ball.t) :
  hit t racket b = Some b' → rect b' = rect b ∧ last_collision b' = t.
Proof.
  unfold hit. destruct (edge_hit _ racket).
  - intros H. apply bounce_y_power_frame in H as (Hr & Hl & _).
    rewrite Hr, Hl. split; reflexivity.
  - intros H. injection H as <-. split; reflexivity.
Qed.

Lemma move_rackets_cons (get_ticks : nat → Z) (k : nat) (b : Ball.t)
    (racket : Racket.t) (args : list Racket.t) :
  move_rackets get_ticks k b (racket :: args) =
    if Rect.colliderect (rect b) (Racket.rect racket)
    then b' ← hit (get_ticks k) racket b; move_rackets get_ticks (S k) b' args
    else move_rackets get_ticks k b args.
Proof. reflexivity. Qed.

Lemma move_rackets_rect (get_ticks : nat → Z) (args : list Racket.t) :
  ∀ (k : nat) (b b' : Ball.t),
    move_rackets get_ticks k b args = Some b' → rect b' = rect b.
Proof.
  induction args as [|racket args IH]; intros k b b' H.
  - injection H as <-. reflexivity.
  - rewrite move_rackets_cons in H.
    destruct (Rect.colliderect (rect b) (Racket.rect racket)).
    + destruct (hit (get_ticks k) racket b) as [b1|] eqn:Hh; simpl in H;
        [|discriminate].
      apply hit_frame in Hh as (Hr & _). apply IH in H. congruence.
    + apply IH in H. exact H.
Qed.

Lemma move_rackets_miss (get_ticks : nat → Z) (args : list Racket.t) :
  ∀ (k : nat) (b : Ball.t),
    Forall (λ racket, Rect.colliderect (rect b) (Racket.rect racket) = false) args →
    move_rackets get_ticks k b args = Some b.
Proof.
  induction args as [|racket args IH]; intros k b H.
  - reflexivity.
  - inversion H as [|? ? Hr Hrest]; subst.
    rewrite move_rackets_cons, Hr. apply IH. exact Hrest.
Qed.


End BallFacts.

Lemma reset_state (b : Ball.t) :
  Ball.rect (Ball.reset b)
    = Rect.mk (Ball.start_x b) (Ball.start_y b)
        (Rect.width (Ball.rect b)) (Rect.height (Ball.rect b))
  ∧ Ball.x_speed (Ball.reset b) = PyInt (Ball.start_speed b)
  ∧ Ball.y_speed (Ball.reset b) = PyInt (- Ball.start_speed b)
  ∧ Ball.color (Ball.reset b) = Ball.start_color b
  ∧ Ball.last_collision (Ball.reset b) = Ball.last_collision b.
Proof.
  unfold Ball.reset, Ball.bounce_y. simpl. repeat split.
  f_equal. lia.
Qed.

Lemma reset_idempotent (b : Ball.t) : Ball.reset (Ball.reset b) = Ball.reset b.
Proof. reflexivity. Qed.

(** The debounce test of [move]: inside the window the move ends after the walls,
    outside it the rackets are visited. *)
Lemma move_gate (b b1 : Ball.t) (board : Board.t) (get_ticks : nat → Z)
    (args : list Racket.t) :
  Ball.move_walls b board = Some b1 →
  Ball.move b board get_ticks args =
    if get_ticks 0%nat - Ball.last_collision b <? FPS * 4 then Some b1
    else Ball.move_rackets get_ticks 1%nat b1 args.
Proof.
  intros Hwalls. unfold Ball.move. rewrite Hwalls. simpl.
  rewrite (move_walls_last_collision _ _ _ Hwalls). reflexivity.
Qed.


(** A colour whose green channel lies strictly between 245 and 255 is
    pushed beyond 255, and the drawing that follows raises. *)
Lemma bounce_y_power_overshoot (b : Ball.t) (r g bl : Z) :
  Ball.color b = (r, g, bl) → 245 < g < 255 →
  Ball.power_color (Ball.color b) = (r, g + 10, bl)
  ∧ Ball.bounce_y_power b = None.
Proof.
  intros Hc Hg.
  assert (Hp : Ball.power_color (Ball.color b) = (r, g + 10, bl)).
  { rewrite Hc. unfold Ball.power_color.
    destruct (Z.ltb_spec g 255); [reflexivity|lia]. }
  split; [exact Hp|].
  unfold Ball.bounce_y_power. simpl. rewrite Hp. unfold Ball.valid_color.
  replace (g + 10 <=? 255) with false by (symmetry; apply Z.leb_gt; lia).
  rewrite !andb_false_r. reflexivity.
Qed.




(** C7. When the y position reached by advancing the ball is below 0 or
    above the board height minus the ball's height, [Ball.move] resets the
    ball: after the walls its position is the start position, its
    horizontal speed is the start speed, its vertical speed the opposite
    of the start speed (the bounce that closes [reset]) and its colour the
    start colour. The position is the start position at the end of the
    move too, and the whole state is the reset one when the debounce
    window is open or no racket touches the ball there. *)
Theorem ball_move_resets_beyond_vertical_bounds
    (b ba : Ball.t) (board : Board.t) (get_ticks : nat → Z)
    (args : list Racket.t)
    (Hadv : Ball.advance b = Some ba)
    (Hout : Rect.y (Ball.rect ba) < 0
            ∨ Board.get_height board - Rect.height (Ball.rect ba)
              < Rect.y (Ball.rect ba)) :
  ∃ b1 : Ball.t,
    Ball.move_walls b board = Some b1
    ∧ Rect.x (Ball.rect b1) = Ball.start_x b
    ∧ Rect.y (Ball.rect b1) = Ball.start_y b
    ∧ Ball.x_speed b1 = PyInt (Ball.start_speed b)
    ∧ Ball.y_speed b1 = PyInt (- Ball.start_speed b)
    ∧ Ball.color b1 = Ball.start_color b
    ∧ (∀ b' : Ball.t, Ball.move b board get_ticks args = Some b' →
         Rect.x (Ball.rect b') = Ball.start_x b
         ∧ Rect.y (Ball.rect b') = Ball.start_y b)
    ∧ (get_ticks 0%nat - Ball.last_collision b < 4 * FPS
       ∨ Forall (λ racket,
            Rect.colliderect (Ball.rect b1) (Racket.rect racket) = false) args →
       Ball.move b board get_ticks args = Some b1).
Proof.
  pose proof (advance_frame _ _ Hadv)
    as (_ & _ & _ & _ & Hsx & Hsy & Hss & Hsc & _ & _).
  set (bx := if Ball.out_x ba board then Ball.bounce_x ba else ba).
  assert (Hbx : Ball.rect bx = Ball.rect ba
                ∧ Ball.start_x bx = Ball.start_x ba
                ∧ Ball.start_y bx = Ball.start_y ba
                ∧ Ball.start_speed bx = Ball.start_speed ba
                ∧ Ball.start_color bx = Ball.start_color ba).
  { subst bx. destruct (Ball.out_x ba board); repeat split. }
  destruct Hbx as (Hrect & Hbsx & Hbsy & Hbss & Hbsc).
  assert (Hy : Ball.out_y bx board = true).
  { unfold Ball.out_y. rewrite Hrect. apply orb_true_iff.
    destruct Hout; [left|right]; apply Z.ltb_lt; assumption. }
  assert (Hwalls : Ball.move_walls b board = Some (Ball.reset bx)).
  { unfold Ball.move_walls. rewrite Hadv. simpl. fold bx. rewrite Hy.
    reflexivity. }
  exists (Ball.reset bx).
  destruct (reset_state bx) as (Hr & Hvx & Hvy & Hcol & _).
  split; [exact Hwalls|].
  split; [rewrite Hr; simpl; congruence|].
  split; [rewrite Hr; simpl; congruence|].
  split; [congruence|]. split; [congruence|]. split; [congruence|].
  pose proof (move_gate _ _ _ get_ticks args Hwalls) as Hmove.
  split.
  - intros b' Hb'. rewrite Hmove in Hb'.
    assert (Ball.rect b' = Ball.rect (Ball.reset bx)) as ->.
    { destruct (_ <? _) in Hb'.
      - injection Hb' as <-. reflexivity.
      - apply (move_rackets_rect _ _ _ _ _ Hb'). }
    rewrite Hr. simpl. split; congruence.
  - intros Hquiet. rewrite Hmove.
    destruct (Z.ltb_spec (get_ticks 0%nat - Ball.last_collision b) (FPS * 4))
      as [Hlt|Hge]; [reflexivity|].
    destruct Hquiet as [Hdeb|Hmiss]; [lia|].
    apply move_rackets_miss. exact Hmiss.
Qed.

Lemma ball_move_resets_beyond_vertical_bounds_witness :
  let b := Ball.set_rect (Rect.mk 120 379 20 20) (Ball.default 400 200) in
  let board := Board.mk 800 400 in
  ∃ b1 : Ball.t,
    Ball.move b board (λ _, 5000) [Racket.default 400 380; Racket.default 400 0]
      = Some b1
    ∧ Ball.rect b1 = Rect.mk 400 200 20 20
    ∧ Ball.x_speed b1 = PyInt 3 ∧ Ball.y_speed b1 = PyInt (-3)
    ∧ Ball.color b1 = (255, 10, 0).
Proof.
  destruct (ball_move_resets_beyond_vertical_bounds
              (Ball.set_rect (Rect.mk 120 379 20 20) (Ball.default 400 200))
              (Ball.set_rect (Rect.mk 123 382 20 20) (Ball.default 400 200))
              (Board.mk 800 400) (λ _, 5000)
              [Racket.default 400 380; Racket.default 400 0]
              eq_refl)
    as (b1 & Hwalls & Hx & Hy & Hvx & Hvy & Hcol & _ & Hmove).
  { right. reflexivity. }
  exists b1.
  injection Hwalls as <-.
  split; [|repeat split].
  apply Hmove. right. repeat constructor.
Defined.

(** C3 (refuted on the code). [bounce_y_power] adds 10 to the green
    channel whenever it is below 255, so it does not stop at 255. From the
    default colour (255, 10, 0) twenty-four power bounces in a row return
    and leave the green channel at 250; the next one assigns the colour
    (255, 260, 0) and then raises in the drawing, before any speed is
    scaled or inverted. The same happens to every ball whose green channel
    lies strictly between 245 and 255. *)
Theorem bounce_y_power_green_exceeds_255 :
  (∃ b24 : Ball.t,
     Nat.iter 24 (λ ob, ob ≫= Ball.bounce_y_power) (Some (Ball.default 400 200))
       = Some b24
     ∧ Ball.color b24 = (255, 250, 0)
     ∧ Ball.power_color (Ball.color b24) = (255, 260, 0)
     ∧ ¬ (snd (fst (Ball.power_color (Ball.color b24))) <= 255)
     ∧ Ball.bounce_y_power b24 = None)
  ∧ (∀ (b : Ball.t) (r g bl : Z),
       Ball.color b = (r, g, bl) → 245 < g < 255 →
       Ball.power_color (Ball.color b) = (r, g + 10, bl)
       ∧ 255 < g + 10
       ∧ Ball.bounce_y_power b = None).
Proof.
  split.
  - eexists. split; [vm_compute; reflexivity|].
    split; [reflexivity|]. split; [reflexivity|].
    split; [simpl; lia|reflexivity].
  - intros b r g bl Hc Hg.
    destruct (bounce_y_power_overshoot b r g bl Hc Hg) as (Hp & Hn).
    split; [exact Hp|]. split; [lia|exact Hn].
Qed.

(** ** Triangular membership functions *)

Open Scope Q_scope.

Lemma Qltb_spec (a b : Q) : reflect (a < b) (Qltb a b).
Proof.
  unfold Qltb. destruct (Qle_bool b a) eqn:E; simpl; constructor.
  - apply Qle_bool_iff in E. lra.
  - apply Qnot_le_lt. intros Hle. apply Qle_bool_iff in Hle. congruence.
Qed.

Lemma Qeqb_spec (a b : Q) : reflect (a == b) (Qeq_bool a b).
Proof.
  destruct (Qeq_bool a b) eqn:E; constructor.
  - apply Qeq_bool_iff. exact E.
  - intros H. apply Qeq_bool_iff in H. congruence.
Qed.

(** The four regimes of a triangle. *)
Lemma trimf_cases (a b c x : Q) :
  (x == b ∧ trimf (a, b, c) x = 1)
  ∨ (¬ x == b ∧ a < x < b ∧ trimf (a, b, c) x = (x - a) / (b - a))
  ∨ (¬ x == b ∧ ¬ a < x < b ∧ b < x < c
     ∧ trimf (a, b, c) x = (c - x) / (c - b))
  ∨ (¬ x == b ∧ ¬ a < x < b ∧ ¬ b < x < c ∧ trimf (a, b, c) x = 0).
Proof.
  unfold trimf.
  destruct (Qeqb_spec x b) as [He|He]; [left; split; [exact He|reflexivity]|].
  right.
  destruct (Qltb_spec a x) as [H1|H1]; destruct (Qltb_spec x b) as [H2|H2];
    simpl;
    [left; repeat split; assumption| | |];
    right;
    (destruct (Qltb_spec b x) as [H3|H3]; destruct (Qltb_spec x c) as [H4|H4];
     simpl;
     [left; repeat split; try assumption; intros [? ?]; contradiction
     |right; repeat split; try assumption; intros [? ?]; contradiction ..]).
Qed.

Lemma ramp_bounds (p q : Q) : 0 < p → p < q → 0 < p / q ∧ p / q < 1.
Proof.
  intros Hp Hq. split.
  - apply Qlt_shift_div_l; lra.
  - apply Qlt_shift_div_r; lra.
Qed.

Lemma trimf_bounds (p : abc) (x : Q) : 0 <= trimf p x <= 1.
Proof.
  destruct p as [[a b] c].
  destruct (trimf_cases a b c x)
    as [(_ & ->)|[(_ & (H1 & H2) & ->)|[(_ & _ & (H1 & H2) & ->)|(_ & _ & _ & ->)]]].
  - lra.
  - destruct (ramp_bounds (x - a) (b - a)); lra.
  - destruct (ramp_bounds (c - x) (c - b)); lra.
  - lra.
Qed.

(** Inside the open support of a triangle the degree is positive; so it
    is at the peak, even when the peak is a foot. *)
Lemma trimf_pos (a b c x : Q) :
  (a < x ∧ x < c) ∨ x == b → 0 < trimf (a, b, c) x.
Proof.
  intros Hx.
  destruct (trimf_cases a b c x)
    as [(_ & ->)|[(_ & (H1 & H2) & ->)|[(_ & _ & (H1 & H2) & ->)|(Hb & Hl & Hr & _)]]].
  - lra.
  - destruct (ramp_bounds (x - a) (b - a)); lra.
  - destruct (ramp_bounds (c - x) (c - b)); lra.
  - exfalso. destruct Hx as [[H1 H2]|He]; [|contradiction].
    destruct (Qlt_le_dec x b) as [Hlt|Hge]; [apply Hl; split; assumption|].
    apply Hr. split; [|assumption].
    destruct (Qle_lt_or_eq _ _ Hge) as [?|He]; [assumption|].
    exfalso. apply Hb. symmetry. exact He.
Qed.

(** Outside the closed support, and at a foot that is not the peak, the
    degree is zero. *)
Lemma trimf_zero (a b c x : Q) :
  a <= b → b <= c → ¬ x == b → x <= a ∨ c <= x → trimf (a, b, c) x = 0.
Proof.
  intros Hab Hbc Hb Hx.
  destruct (trimf_cases a b c x)
    as [(He & _)|[(_ & (H1 & H2) & _)|[(_ & _ & (H1 & H2) & _)|(_ & _ & _ & ->)]]].
  - contradiction.
  - lra.
  - lra.
  - reflexivity.
Qed.

Lemma trimf_mirror (a b c x : Q) :
  trimf (- c, - b, - a) (- x) == trimf (a, b, c) x.
Proof.
  destruct (trimf_cases a b c x)
    as [(He & ->)|[(Hb & (H1 & H2) & ->)|[(Hb & Hl & (H1 & H2) & ->)|(Hb & Hl & Hr & ->)]]];
  destruct (trimf_cases (- c) (- b) (- a) (- x))
    as [(He' & ->)|[(Hb' & (H1' & H2') & ->)|[(Hb' & Hl' & (H1' & H2') & ->)|(Hb' & Hl' & Hr' & ->)]]];
  try reflexivity; try lra;
  try (exfalso; apply Hb; lra); try (exfalso; apply Hb'; lra);
  try (field; lra);
  try (exfalso; apply Hl'; lra); try (exfalso; apply Hr'; lra);
  try (exfalso; apply Hl; lra); try (exfalso; apply Hr; lra).
Qed.

Lemma trimf_proper (p : abc) (x x' : Q) : x == x' → trimf p x == trimf p x'.
Proof.
  intros Hx. destruct p as [[a b] c].
  destruct (trimf_cases a b c x)
    as [(He & ->)|[(Hb & (H1 & H2) & ->)|[(Hb & Hl & (H1 & H2) & ->)|(Hb & Hl & Hr & ->)]]];
  destruct (trimf_cases a b c x')
    as [(He' & ->)|[(Hb' & (H1' & H2') & ->)|[(Hb' & Hl' & (H1' & H2') & ->)|(Hb' & Hl' & Hr' & ->)]]];
  try reflexivity; try lra;
  try (exfalso; apply Hb; lra); try (exfalso; apply Hb'; lra);
  try (rewrite Hx; reflexivity);
  try (exfalso; apply Hl'; lra); try (exfalso; apply Hr'; lra);
  try (exfalso; apply Hl; lra); try (exfalso; apply Hr; lra).
Qed.

(** ** Sums and maxima of lists of rationals *)

Lemma sumQ_nonneg {A : Type} (f : A → Q) (l : list A) :
  (∀ s, 0 <= f s) → 0 <= sumQ (map f l).
Proof.
  intros Hf. induction l as [|s l IH]; simpl; [lra|].
  specialize (Hf s). lra.
Qed.

Lemma sumQ_pos {A : Type} (f : A → Q) (l : list A) (t : A) :
  (∀ s, 0 <= f s) → t ∈ l → 0 < f t → 0 < sumQ (map f l).
Proof.
  intros Hf Hin Ht. induction Hin as [t l|t s l Hin IH]; simpl.
  - pose proof (sumQ_nonneg f l Hf). lra.
  - specialize (Hf s). lra.
Qed.

Lemma sumQ_ext {A : Type} (f g : A → Q) (l : list A) :
  (∀ s, f s == g s) → sumQ (map f l) == sumQ (map g l).
Proof.
  intros Hfg. induction l as [|s l IH]; simpl; [reflexivity|].
  rewrite IH, (Hfg s). reflexivity.
Qed.

Lemma sumQ_app (l k : list Q) : sumQ (l ++ k) == sumQ l + sumQ k.
Proof. induction l as [|q l IH]; simpl; [lra|]. rewrite IH. lra. Qed.

Lemma sumQ_rev (l : list Q) : sumQ (rev l) == sumQ l.
Proof.
  induction l as [|q l IH]; simpl; [reflexivity|].
  rewrite sumQ_app, IH. simpl. lra.
Qed.

Lemma sumQ_opp {A : Type} (f : A → Q) (l : list A) :
  sumQ (map (λ s, - f s) l) == - sumQ (map f l).
Proof. induction l as [|s l IH]; simpl; [lra|]. rewrite IH. lra. Qed.

Lemma maxQ_nonneg (l : list Q) : 0 <= maxQ l.
Proof.
  induction l as [|q l IH]; simpl; [lra|].
  apply Qle_trans with (maxQ l); [exact IH|apply Q.le_max_r].
Qed.

Lemma maxQ_ge (l : list Q) (q : Q) : q ∈ l → q <= maxQ l.
Proof.
  intros Hin. induction Hin as [q l|q p l Hin IH]; simpl.
  - apply Q.le_max_l.
  - apply Qle_trans with (maxQ l); [exact IH|apply Q.le_max_r].
Qed.

Lemma maxQ_ext {A : Type} (f g : A → Q) (l : list A) :
  (∀ s, f s == g s) → maxQ (map f l) == maxQ (map g l).
Proof.
  intros Hfg. induction l as [|s l IH]; simpl; [reflexivity|].
  apply Q.max_compat; [apply Hfg|exact IH].
Qed.

Lemma maxQ_zero {A : Type} (f : A → Q) (l : list A) :
  Forall (λ s, f s == 0) l → maxQ (map f l) == 0.
Proof.
  induction 1 as [|s l Hs _ IH]; simpl; [reflexivity|].
  rewrite (Q.max_compat _ _ Hs _ _ IH). apply Q.max_id.
Qed.

Lemma maxQ_app (l k : list Q) : maxQ (l ++ k) == Qmax (maxQ l) (maxQ k).
Proof.
  induction l as [|q l IH]; simpl.
  - symmetry. apply Q.max_r, maxQ_nonneg.
  - rewrite (Q.max_compat _ _ (Qeq_refl q) _ _ IH). apply Q.max_assoc.
Qed.

Lemma maxQ_rev (l : list Q) : maxQ (rev l) == maxQ l.
Proof.
  induction l as [|q l IH]; simpl; [reflexivity|].
  rewrite maxQ_app. simpl.
  transitivity (Qmax (maxQ l) (Qmax q 0)).
  { apply Q.max_compat; [exact IH|reflexivity]. }
  rewrite Q.max_comm, <- Q.max_assoc.
  apply Q.max_compat; [reflexivity|]. apply Q.max_r, maxQ_nonneg.
Qed.

(** ** Coverage of the input universes *)

Lemma x_diff_covered (v : Q) : -400 <= v <= 400 → 0 < x_diff.coverage v.
Proof.
  intros [Hlo Hhi]. unfold x_diff.coverage.
  assert (Hnn : ∀ t, 0 <= trimf (x_diff.mf t) v) by (intros t; apply trimf_bounds).
  destruct (Qlt_le_dec v (-20)) as [H1|H1].
  { apply (sumQ_pos _ _ x_diff.far_left Hnn); [set_solver|].
    apply trimf_pos. unfold edge, middle_edge.
    destruct (Qle_lt_or_eq _ _ Hlo) as [Hlt|Heq]; [left; split; lra|right; symmetry; exact Heq]. }
  destruct (Qlt_le_dec v 0) as [H2|H2].
  { apply (sumQ_pos _ _ x_diff.left Hnn); [set_solver|].
    apply trimf_pos. unfold middle_edge. left. split; lra. }
  destruct (Qlt_le_dec v 15) as [H3|H3].
  { apply (sumQ_pos _ _ x_diff.center Hnn); [set_solver|].
    apply trimf_pos. left.
    setoid_replace (- middle_edge / 2) with (-15) using relation Qeq by reflexivity.
    setoid_replace (middle_edge / 2) with 15 using relation Qeq by reflexivity.
    split; lra. }
  destruct (Qlt_le_dec v 30) as [H4|H4].
  { apply (sumQ_pos _ _ x_diff.right Hnn); [set_solver|].
    apply trimf_pos. unfold middle_edge. left. split; lra. }
  apply (sumQ_pos _ _ x_diff.far_right Hnn); [set_solver|].
  apply trimf_pos. unfold edge, middle_edge.
  destruct (Qle_lt_or_eq _ _ Hhi) as [Hlt|Heq]; [left; split; lra|right; exact Heq].
Qed.

Lemma y_diff_covered (v : Q) : -200 < v < 200 → 0 < y_diff.coverage v.
Proof.
  intros [Hlo Hhi]. unfold y_diff.coverage.
  assert (Hnn : ∀ t, 0 <= trimf (y_diff.mf t) v) by (intros t; apply trimf_bounds).
  destruct (Qlt_le_dec v 0) as [H1|H1].
  { apply (sumQ_pos _ _ y_diff.above Hnn); [set_solver|].
    apply trimf_pos. left. split; lra. }
  destruct (Qlt_le_dec v 100) as [H2|H2].
  { apply (sumQ_pos _ _ y_diff.center Hnn); [set_solver|].
    apply trimf_pos. left. split; lra. }
  apply (sumQ_pos _ _ y_diff.below Hnn); [set_solver|].
  apply trimf_pos. left. split; lra.
Qed.

(** C2 (as amended). Every crisp value of the universe [-400, 400] of
    [x_diff], endpoints included, has a positive total membership over the
    five terms of [x_diff]; for [y_diff] this holds strictly inside
    (-200, 200), while at the two endpoints -200 and 200 of its universe
    all three terms have degree 0. *)
Theorem input_universes_coverage :
  (∀ v : Q, -400 <= v <= 400 → 0 < x_diff.coverage v)
  ∧ (∀ v : Q, -200 < v < 200 → 0 < y_diff.coverage v)
  ∧ Forall (λ t, trimf (y_diff.mf t) (-200) = 0) y_diff.terms
  ∧ Forall (λ t, trimf (y_diff.mf t) 200 = 0) y_diff.terms.
Proof.
  split; [exact x_diff_covered|]. split; [exact y_diff_covered|].
  split; repeat constructor.
Qed.

Lemma input_universes_coverage_witness :
  0 < x_diff.coverage (-400) ∧ 0 < x_diff.coverage 400
  ∧ 0 < y_diff.coverage (-199).
Proof.
  destruct input_universes_coverage as (Hx & Hy & _).
  split; [|split].
  - apply Hx. split; discriminate.
  - apply Hx. split; discriminate.
  - apply Hy. split; reflexivity.
Defined.

(** C2 as stated fails: -200 lies in the universe of [y_diff] and the
    memberships of its three terms there add up to 0. *)
Lemma y_diff_coverage_gap :
  -200 <= -200 <= 200 ∧ ¬ 0 < y_diff.coverage (-200).
Proof. split; [split; discriminate|]. vm_compute. discriminate. Qed.

(** ** The inference engine *)

Section Engine.

Import fuzzcontrol.

Lemma Qmin_pos (p q : Q) : 0 < p → 0 < q → 0 < Qmin p q.
Proof. intros Hp Hq. destruct (Q.min_spec p q) as [[_ ->]|[_ ->]]; assumption. Qed.

Lemma strength_bounds (x y : Q) (a : antecedent) : 0 <= strength x y a <= 1.
Proof.
  induction a as [t|t|p [IHp1 IHp2] q [IHq1 IHq2]|p [IHp1 IHp2] q [IHq1 IHq2]];
    simpl; try apply trimf_bounds.
  - destruct (Q.min_spec (strength x y p) (strength x y q)) as [[_ ->]|[_ ->]];
      split; assumption.
  - destruct (Q.max_spec (strength x y p) (strength x y q)) as [[_ ->]|[_ ->]];
      split; assumption.
Qed.

Lemma firing_cons (r : Rule) (rules : list Rule) (x y : Q) (t : velocity.term) :
  firing (r :: rules) x y t =
    if decide (rule_consequent r = t)
    then Qmax (strength x y (rule_antecedent r)) (firing rules x y t)
    else firing rules x y t.
Proof.
  unfold firing. rewrite filter_cons.
  destruct (decide (rule_consequent r = t)); reflexivity.
Qed.

Lemma firing_nonneg (rules : list Rule) (x y : Q) (t : velocity.term) :
  0 <= firing rules x y t.
Proof. apply maxQ_nonneg. Qed.

Lemma firing_ge (rules : list Rule) (x y : Q) (r : Rule) :
  r ∈ rules → strength x y (rule_antecedent r) <= firing rules x y (rule_consequent r).
Proof.
  intros Hin. induction Hin as [r rules|r r' rules Hin IH]; rewrite firing_cons.
  - rewrite decide_True by reflexivity. apply Q.le_max_l.
  - destruct (decide _); [|exact IH].
    apply Qle_trans with (firing rules x y (rule_consequent r));
      [exact IH|apply Q.le_max_r].
Qed.

Lemma firing_zero (rules : list Rule) (x y : Q) (t : velocity.term) :
  Forall (λ r, strength x y (rule_antecedent r) == 0) rules →
  firing rules x y t == 0.
Proof.
  induction 1 as [|r rules Hr _ IH]; [reflexivity|].
  rewrite firing_cons. destruct (decide _); [|exact IH].
  rewrite (Q.max_compat _ _ Hr _ _ IH). apply Q.max_id.
Qed.

Lemma aggregate_nonneg (rules : list Rule) (x y u : Q) : 0 <= aggregate rules x y u.
Proof. apply maxQ_nonneg. Qed.

Lemma aggregate_zero (rules : list Rule) (x y u : Q) :
  Forall (λ r, strength x y (rule_antecedent r) == 0) rules →
  aggregate rules x y u == 0.
Proof.
  intros Hz. unfold aggregate. apply maxQ_zero. apply Forall_forall.
  intros t _. simpl.
  rewrite (Q.min_compat _ _ (Qeq_refl _) _ _ (firing_zero rules x y t Hz)).
  apply Q.min_r. apply trimf_bounds.
Qed.

Lemma velocity_term_peak (t : velocity.term) :
  ∃ u : Z, u ∈ velocity.universe ∧ trimf (velocity.mf t) (inject_Z u) = 1.
Proof.
  destruct t;
    [exists (-10)%Z|exists (-9)%Z|exists 0%Z|exists 9%Z|exists 10%Z];
    (split; [apply elem_of_seqZ; lia|reflexivity]).
Qed.

Lemma aggregate_ge (rules : list Rule) (x y u : Q) (t : velocity.term) :
  Qmin (trimf (velocity.mf t) u) (firing rules x y t) <= aggregate rules x y u.
Proof.
  unfold aggregate. apply maxQ_ge.
  apply list_elem_of_In.
  apply (in_map (λ t, Qmin (trimf (velocity.mf t) u) (firing rules x y t))).
  destruct t; simpl; tauto.
Qed.

Lemma area_nonneg (rules : list Rule) (x y : Q) : 0 <= area (aggregate rules x y).
Proof. apply sumQ_nonneg. intros u. apply aggregate_nonneg. Qed.

Lemma area_zero (rules : list Rule) (x y : Q) :
  Forall (λ r, strength x y (rule_antecedent r) == 0) rules →
  area (aggregate rules x y) == 0.
Proof.
  intros Hz. unfold area.
  rewrite (sumQ_ext _ (λ _, 0) _ (λ u, aggregate_zero rules x y (inject_Z u) Hz)).
  generalize velocity.universe. intros l.
  induction l as [|u l IH]; simpl; [reflexivity|]. rewrite IH. lra.
Qed.

Lemma area_pos (rules : list Rule) (x y : Q) (r : Rule) :
  r ∈ rules → 0 < strength x y (rule_antecedent r) →
  0 < area (aggregate rules x y).
Proof.
  intros Hin Hpos.
  destruct (velocity_term_peak (rule_consequent r)) as (u & Hu & Hpeak).
  unfold area.
  apply (sumQ_pos _ _ u (λ u, aggregate_nonneg rules x y (inject_Z u)) Hu).
  eapply Qlt_le_trans; [|apply (aggregate_ge _ _ _ _ (rule_consequent r))].
  rewrite Hpeak. apply Qmin_pos; [reflexivity|].
  eapply Qlt_le_trans; [exact Hpos|apply firing_ge; exact Hin].
Qed.

Lemma defuzz_cases (rules : list Rule) (x y : Q) :
  (area (aggregate rules x y) == 0 ∧ defuzz rules x y = None)
  ∨ (0 < area (aggregate rules x y)
     ∧ defuzz rules x y
       = Some (moment (aggregate rules x y) / area (aggregate rules x y))).
Proof.
  unfold defuzz, centroid.
  destruct (Qeqb_spec (area (aggregate rules x y)) 0) as [He|Hne].
  - left. split; [exact He|reflexivity].
  - right. split; [|reflexivity].
    pose proof (area_nonneg rules x y).
    destruct (Qle_lt_or_eq _ _ H) as [?|He]; [assumption|].
    exfalso. apply Hne. symmetry. exact He.
Qed.

End Engine.

(** ** FuzzyPlayer.make_decision *)

Section Decision.

Import fuzzcontrol.

(** Clamping an integer observation yields the clamped integer. *)
Lemma clip_inject_Z (lo hi z : Z) :
  clip (inject_Z lo, inject_Z hi) (inject_Z z)
  = inject_Z (Z.max lo (Z.min hi z)).
Proof.
  unfold clip, Qmax, Qmin, GenericMinMax.gmax, GenericMinMax.gmin. simpl.
  unfold Qcompare. simpl. rewrite !Z.mul_1_r.
  destruct (Z.compare_spec hi z); destruct (Z.compare_spec lo hi);
    destruct (Z.compare_spec lo z); simpl; rewrite ?Z.mul_1_r;
    try (destruct (Z.compare_spec lo hi)); try (destruct (Z.compare_spec lo z));
    f_equal; lia.
Qed.

(** A decision is the value of [infer] on the rule base of the
    simulation; it leaves the rule base in place. *)
Lemma make_decision_infer (self : FuzzyPlayer.t) (x_diff y_diff : Z) :
  ∃ sim : ControlSystemSimulation,
    FuzzyPlayer.make_decision self x_diff y_diff
      = Ok (infer (ctrl (FuzzyPlayer.racket_simulation self)) x_diff y_diff,
            FuzzyPlayer.mk (FuzzyPlayer.player self)
              (FuzzyPlayer.racket_controller self) sim)
    ∧ ctrl sim = ctrl (FuzzyPlayer.racket_simulation self).
Proof.
  unfold FuzzyPlayer.make_decision, set_input, compute, get_output, infer.
  simpl.
  rewrite lookup_insert_ne by discriminate.
  rewrite !lookup_insert_eq. simpl.
  destruct (defuzz _ _ _) as [v|]; simpl.
  - rewrite lookup_insert_eq. eexists. split; reflexivity.
  - rewrite lookup_delete_eq. eexists. split; reflexivity.
Qed.

Lemma decisions_ok (observations : list (Z * Z)) :
  ∀ self : FuzzyPlayer.t,
  ∃ self' : FuzzyPlayer.t,
    FuzzyPlayer.decisions self observations = Ok self'
    ∧ ctrl (FuzzyPlayer.racket_simulation self')
      = ctrl (FuzzyPlayer.racket_simulation self).
Proof.
  induction observations as [|[x y] observations IH]; intros self; simpl.
  - exists self. split; reflexivity.
  - destruct (make_decision_infer self x y) as (sim & -> & Hctrl). simpl.
    destruct (IH (FuzzyPlayer.mk (FuzzyPlayer.player self)
                    (FuzzyPlayer.racket_controller self) sim))
      as (self' & -> & Hctrl').
    exists self'. split; [reflexivity|]. simpl in Hctrl'. congruence.
Qed.

End Decision.

(** ** Mirror symmetry of the controller *)

Section Mirror.

Import fuzzcontrol.

Lemma v_term_involutive (t : velocity.term) : mirror.v_term (mirror.v_term t) = t.
Proof. destruct t; reflexivity. Qed.

Lemma x_term_mirror (t : x_diff.term) (x : Q) :
  trimf (x_diff.mf (mirror.x_term t)) (- x) == trimf (x_diff.mf t) x.
Proof.
  destruct t; simpl.
  - apply (trimf_mirror (- edge) (- edge) (- middle_edge + 10) x).
  - apply (trimf_mirror (- middle_edge) (- middle_edge / 2) 0 x).
  - apply (trimf_mirror (- middle_edge / 2) 0 (middle_edge / 2) x).
  - apply (trimf_mirror 0 (middle_edge / 2) middle_edge x).
  - apply (trimf_mirror (middle_edge - 10) edge edge x).
Qed.

Lemma v_term_mirror (t : velocity.term) (u : Q) :
  trimf (velocity.mf (mirror.v_term t)) (- u) == trimf (velocity.mf t) u.
Proof.
  destruct t; simpl.
  - apply (trimf_mirror (-10) (-10) (-10) u).
  - apply (trimf_mirror (-9) (-9) (-3) u).
  - apply (trimf_mirror (-3) 0 3 u).
  - apply (trimf_mirror 3 9 9 u).
  - apply (trimf_mirror 10 10 10 u).
Qed.

Lemma strength_mirror (x y : Q) (a : antecedent) :
  strength (- x) y (mirror.antecedent a) == strength x y a.
Proof.
  induction a as [t|t|p IHp q IHq|p IHp q IHq]; simpl.
  - apply x_term_mirror.
  - reflexivity.
  - apply Q.min_compat; assumption.
  - apply Q.max_compat; assumption.
Qed.

Lemma firing_mirror (rules : list Rule) (x y : Q) (t : velocity.term) :
  firing (map mirror.rule rules) (- x) y (mirror.v_term t) == firing rules x y t.
Proof.
  induction rules as [|r rules IH]; [reflexivity|].
  simpl map. rewrite !firing_cons. simpl rule_consequent. simpl rule_antecedent.
  destruct (decide (mirror.v_term (rule_consequent r) = mirror.v_term t)) as [He|Hne];
    destruct (decide (rule_consequent r = t)) as [He'|Hne'].
  - apply Q.max_compat; [apply strength_mirror|exact IH].
  - exfalso. apply Hne'.
    rewrite <- (v_term_involutive (rule_consequent r)), He.
    apply v_term_involutive.
  - exfalso. apply Hne. congruence.
  - exact IH.
Qed.

(** The rule base is its own mirror image: reflecting every rule only
    permutes the rules that share a consequent. *)
Lemma rules_self_mirror (x y : Q) (t : velocity.term) :
  firing (map mirror.rule FuzzyPlayer.rules) x y t = firing FuzzyPlayer.rules x y t.
Proof. destruct t; reflexivity. Qed.

Lemma firing_rules_mirror (x y : Q) (t : velocity.term) :
  firing FuzzyPlayer.rules (- x) y (mirror.v_term t)
  == firing FuzzyPlayer.rules x y t.
Proof. rewrite <- rules_self_mirror. apply firing_mirror. Qed.

Lemma aggregate_mirror (x y u : Q) :
  aggregate FuzzyPlayer.rules (- x) y (- u) == aggregate FuzzyPlayer.rules x y u.
Proof.
  unfold aggregate.
  set (g := λ t, Qmin (trimf (velocity.mf t) u) (firing FuzzyPlayer.rules x y t)).
  transitivity (maxQ (map (λ t, g (mirror.v_term t)) velocity.terms)).
  - apply maxQ_ext. intros t. subst g. simpl.
    apply Q.min_compat.
    + rewrite <- (v_term_mirror (mirror.v_term t) u).
      rewrite v_term_involutive. reflexivity.
    + rewrite <- (firing_rules_mirror x y (mirror.v_term t)).
      rewrite v_term_involutive. reflexivity.
  - change (map (λ t, g (mirror.v_term t)) velocity.terms)
      with (rev (map g velocity.terms)).
    apply maxQ_rev.
Qed.

Lemma universe_symmetric : map Z.opp velocity.universe = rev velocity.universe.
Proof. reflexivity. Qed.

Lemma sumQ_universe_flip (f : Z → Q) :
  sumQ (map (λ u, f (- u)%Z) velocity.universe) == sumQ (map f velocity.universe).
Proof.
  change (map (λ u, f (- u)%Z) velocity.universe)
    with (rev (map f velocity.universe)).
  apply sumQ_rev.
Qed.

Lemma area_mirror (x y : Q) :
  area (aggregate FuzzyPlayer.rules (- x) y) == area (aggregate FuzzyPlayer.rules x y).
Proof.
  unfold area.
  rewrite <- (sumQ_universe_flip
                (λ u, aggregate FuzzyPlayer.rules (- x) y (inject_Z u))).
  apply sumQ_ext. intros u.
  apply (aggregate_mirror x y (inject_Z u)).
Qed.

Lemma moment_mirror (x y : Q) :
  moment (aggregate FuzzyPlayer.rules (- x) y)
  == - moment (aggregate FuzzyPlayer.rules x y).
Proof.
  unfold moment.
  rewrite <- (sumQ_universe_flip
                (λ u, inject_Z u * aggregate FuzzyPlayer.rules (- x) y (inject_Z u))).
  rewrite <- sumQ_opp.
  apply sumQ_ext. intros u.
  change (inject_Z (- u)) with (- inject_Z u).
  rewrite (aggregate_mirror x y (inject_Z u)). ring.
Qed.

Lemma defuzz_mirror (x y : Q) :
  default 0 (defuzz FuzzyPlayer.rules (- x) y)
  == - default 0 (defuzz FuzzyPlayer.rules x y).
Proof.
  pose proof (area_mirror x y) as Ha. pose proof (moment_mirror x y) as Hm.
  destruct (defuzz_cases FuzzyPlayer.rules x y) as [[Hz ->]|[Hp ->]];
    destruct (defuzz_cases FuzzyPlayer.rules (- x) y) as [[Hz' ->]|[Hp' ->]];
    simpl.
  - reflexivity.
  - lra.
  - lra.
  - rewrite Hm, Ha. field. lra.
Qed.

Lemma infer_mirror (x_diff y_diff : Z) :
  infer FuzzyPlayer.rules (- x_diff) y_diff == - infer FuzzyPlayer.rules x_diff y_diff.
Proof.
  unfold infer.
  change x_diff.lo with (inject_Z (-400)). change x_diff.hi with (inject_Z 400).
  rewrite !clip_inject_Z.
  replace (Z.max (-400) (Z.min 400 (- x_diff)))
    with (- Z.max (-400) (Z.min 400 x_diff))%Z by lia.
  apply (defuzz_mirror (inject_Z (Z.max (-400) (Z.min 400 x_diff)))).
Qed.

End Mirror.

(** ** The decision step of the fuzzy player *)

Section DecisionStep.

Import fuzzcontrol.

Lemma not_silent_fires (rules : list Rule) (x y : Q) :
  ¬ Forall (λ r, strength x y (rule_antecedent r) == 0) rules →
  ∃ r : Rule, r ∈ rules ∧ 0 < strength x y (rule_antecedent r).
Proof.
  induction rules as [|r rules IH]; intros Hs.
  - destruct Hs. constructor.
  - destruct (Qeq_dec (strength x y (rule_antecedent r)) 0) as [He|Hne].
    + destruct IH as (r' & Hin & Hr').
      { intros Hrest. apply Hs. constructor; assumption. }
      exists r'. split; [right; exact Hin|exact Hr'].
    + exists r. split; [left|].
      pose proof (strength_bounds x y (rule_antecedent r)) as [Hge _].
      destruct (Qle_lt_or_eq _ _ Hge) as [?|He]; [assumption|].
      exfalso. apply Hne. symmetry. exact He.
Qed.

Lemma sumQ_pos_inv {A : Type} (f : A → Q) (l : list A) :
  0 < sumQ (map f l) → ∃ t : A, t ∈ l ∧ 0 < f t.
Proof.
  induction l as [|s l IH]; simpl; intros Hpos.
  - exfalso. revert Hpos. apply Qlt_irrefl.
  - destruct (Qlt_le_dec 0 (f s)) as [Hs|Hs].
    + exists s. split; [left|exact Hs].
    + destruct IH as (t & Hin & Ht); [lra|].
      exists t. split; [right; exact Hin|exact Ht].
Qed.

(** With the rule base of the player some rule fires at every observation:
    each term of [x_diff] is the antecedent of a rule and the terms cover
    the clamped universe, so the fallback of [make_decision] is never
    taken. *)
Lemma fuzzy_player_never_silent (x_diff y_diff : Z) :
  let x := clip (x_diff.lo, x_diff.hi) (inject_Z x_diff) in
  let y := clip (y_diff.lo, y_diff.hi) (inject_Z y_diff) in
  ∃ r : Rule, r ∈ FuzzyPlayer.rules ∧ 0 < strength x y (rule_antecedent r).
Proof.
  intros x y.
  assert (Hx : -400 <= x <= 400).
  { subst x. change x_diff.lo with (inject_Z (-400)).
    change x_diff.hi with (inject_Z 400). rewrite clip_inject_Z.
    unfold Qle. simpl. lia. }
  destruct (sumQ_pos_inv _ _ (x_diff_covered x Hx)) as (t & _ & Ht).
  assert (Hr : ∃ r, r ∈ FuzzyPlayer.rules ∧ rule_antecedent r = X t).
  { destruct t;
      [exists (mkRule (X x_diff.far_left) velocity.fast_right)
      |exists (mkRule (X x_diff.left) velocity.slow_right)
      |exists (mkRule (X x_diff.center) velocity.stop)
      |exists (mkRule (X x_diff.right) velocity.slow_left)
      |exists (mkRule (X x_diff.far_right) velocity.fast_left)];
      (split; [apply list_elem_of_In; simpl; tauto|reflexivity]). }
  destruct Hr as (r & Hin & Ha).
  exists r. split; [exact Hin|]. rewrite Ha. exact Ht.
Qed.

(** C5. For every observation, inside or outside the universes of the
    inputs, [make_decision] returns a velocity and raises nothing; an
    observation beyond a universe is decided exactly as the nearest bound
    of that universe. With the rule base of the player the aggregate set
    is never empty, so every decision is a centroid. *)
Theorem make_decision_never_raises (self : FuzzyPlayer.t) (x_diff y_diff : Z) :
  (∃ (velocity : Q) (self' : FuzzyPlayer.t),
     FuzzyPlayer.make_decision self x_diff y_diff = Ok (velocity, self'))
  ∧ value (FuzzyPlayer.make_decision self x_diff y_diff)
    = value (FuzzyPlayer.make_decision self
               (Z.max (-400) (Z.min 400 x_diff))
               (Z.max (-200) (Z.min 200 y_diff)))
  ∧ 0 < area (aggregate FuzzyPlayer.rules
                (clip (x_diff.lo, x_diff.hi) (inject_Z x_diff))
                (clip (y_diff.lo, y_diff.hi) (inject_Z y_diff))).
Proof.
  destruct (make_decision_infer self x_diff y_diff) as (sim & Hd & _).
  destruct (make_decision_infer self (Z.max (-400) (Z.min 400 x_diff))
              (Z.max (-200) (Z.min 200 y_diff))) as (sim' & Hd' & _).
  split; [eexists; eexists; exact Hd|]. split.
  - rewrite Hd, Hd'. simpl. f_equal. unfold infer.
    change x_diff.lo with (inject_Z (-400)). change x_diff.hi with (inject_Z 400).
    change y_diff.lo with (inject_Z (-200)). change y_diff.hi with (inject_Z 200).
    rewrite !clip_inject_Z. do 2 f_equal; f_equal; lia.
  - destruct (fuzzy_player_never_silent x_diff y_diff) as (r & Hin & Hpos).
    apply (area_pos _ _ _ r Hin Hpos).
Qed.

(** The decision is what [compute] left under the label of the velocity,
    or 0 when it left nothing there. *)
Lemma make_decision_stored (self : FuzzyPlayer.t) (x_diff y_diff : Z) :
  ∃ sim : ControlSystemSimulation,
    FuzzyPlayer.make_decision self x_diff y_diff
      = Ok (default 0 (output sim !! "velocity"),
            FuzzyPlayer.mk (FuzzyPlayer.player self)
              (FuzzyPlayer.racket_controller self) sim)
    ∧ output sim !! "velocity"
      = defuzz (ctrl (FuzzyPlayer.racket_simulation self))
          (clip (x_diff.lo, x_diff.hi) (inject_Z x_diff))
          (clip (y_diff.lo, y_diff.hi) (inject_Z y_diff)).
Proof.
  unfold FuzzyPlayer.make_decision, set_input, compute, get_output.
  simpl.
  rewrite lookup_insert_ne by discriminate.
  rewrite !lookup_insert_eq. simpl.
  destruct (defuzz _ _ _) as [v|]; simpl.
  - rewrite lookup_insert_eq.
    exists (mkSim (ctrl (FuzzyPlayer.racket_simulation self))
              (<["y_dist" := clip (y_diff.lo, y_diff.hi) (inject_Z y_diff)]>
                 (<["x_dist" := clip (x_diff.lo, x_diff.hi) (inject_Z x_diff)]>
                    (input (FuzzyPlayer.racket_simulation self))))
              (<[velocity.label := v]>
                 (output (FuzzyPlayer.racket_simulation self)))).
    simpl. rewrite lookup_insert_eq. split; reflexivity.
  - rewrite lookup_delete_eq.
    exists (mkSim (ctrl (FuzzyPlayer.racket_simulation self))
              (<["y_dist" := clip (y_diff.lo, y_diff.hi) (inject_Z y_diff)]>
                 (<["x_dist" := clip (x_diff.lo, x_diff.hi) (inject_Z x_diff)]>
                    (input (FuzzyPlayer.racket_simulation self))))
              (delete velocity.label
                 (output (FuzzyPlayer.racket_simulation self)))).
    simpl. rewrite lookup_delete_eq. split; reflexivity.
Qed.

Lemma weighted_sum_bounds (mu : Z → Q) (l : list Z) :
  (∀ u, 0 <= mu u) →
  Forall (λ u, (-10 <= u <= 10)%Z) l →
  -10 * foldr Qplus 0 (map mu l)
  <= foldr Qplus 0 (map (λ u, inject_Z u * mu u) l)
  <= 10 * foldr Qplus 0 (map mu l).
Proof.
  intros Hmu. induction 1 as [|u l [Hlo Hhi] _ [IHlo IHhi]]; simpl.
  - split; lra.
  - rewrite Zle_Qle in Hlo, Hhi. specialize (Hmu u).
    change (inject_Z (-10)) with (-10) in Hlo.
    change (inject_Z 10) with 10 in Hhi.
    assert (0 <= (inject_Z u + 10) * mu u)
      by (apply Qmult_le_0_compat; lra).
    assert (0 <= (10 - inject_Z u) * mu u)
      by (apply Qmult_le_0_compat; lra).
    split; lra.
Qed.

(** C6. The decision is what the engine stored for the velocity, and 0
    when it stored nothing. With the rule base of the player some rule
    fires at every observation, so the aggregate set is never empty and
    the fallback to 0 is never taken: after any earlier decisions the
    player decides the centroid of the aggregate set over the grid
    -10, ..., 10 of the output universe, the sum of [u * mu u] over the
    sum of [mu u], a value between -10 and 10. The centroid is 0 at the
    observation (0, 0), 10 at (-400, 0), -94/29 at (5, 0), -2842/421 at
    (25, 200) and -10 at (350, -150). *)
Theorem make_decision_fallback_or_centroid
    (racket : Racket.t) (ball : Ball.t) (board : Board.t)
    (before : list (Z * Z)) (x_diff y_diff : Z) :
  let x := clip (x_diff.lo, x_diff.hi) (inject_Z x_diff) in
  let y := clip (y_diff.lo, y_diff.hi) (inject_Z y_diff) in
  let mu := λ u : Z, aggregate FuzzyPlayer.rules x y (inject_Z u) in
  let grid := [-10; -9; -8; -7; -6; -5; -4; -3; -2; -1; 0;
               1; 2; 3; 4; 5; 6; 7; 8; 9; 10]%Z in
  let den := foldr Qplus 0 (map mu grid) in
  let num := foldr Qplus 0 (map (λ u, inject_Z u * mu u) grid) in
  (∀ (self0 : FuzzyPlayer.t) (x0 y0 : Z),
     ∃ sim : ControlSystemSimulation,
       FuzzyPlayer.make_decision self0 x0 y0
       = Ok (default 0 (output sim !! "velocity"),
             FuzzyPlayer.mk (FuzzyPlayer.player self0)
               (FuzzyPlayer.racket_controller self0) sim))
  ∧ (∃ (self self' : FuzzyPlayer.t) (velocity : Q),
       FuzzyPlayer.decisions (FuzzyPlayer.init racket ball board) before
         = Ok self
       ∧ FuzzyPlayer.make_decision self x_diff y_diff = Ok (velocity, self')
       ∧ output (FuzzyPlayer.racket_simulation self') !! "velocity"
         = Some velocity
       ∧ velocity = infer FuzzyPlayer.rules x_diff y_diff
       ∧ (∃ r : Rule, r ∈ FuzzyPlayer.rules
                      ∧ 0 < strength x y (rule_antecedent r))
       ∧ 0 < den
       ∧ velocity * den == num
       ∧ -10 <= velocity <= 10)
  ∧ infer FuzzyPlayer.rules 0 0 == 0
  ∧ infer FuzzyPlayer.rules (-400) 0 == 10
  ∧ infer FuzzyPlayer.rules 5 0 == - (94 # 29)
  ∧ infer FuzzyPlayer.rules 25 200 == - (2842 # 421)
  ∧ infer FuzzyPlayer.rules 350 (-150) == -10.
Proof.
  intros x y mu grid den num.
  split.
  { intros self0 x0 y0.
    destruct (make_decision_stored self0 x0 y0) as (sim & Hd & _).
    exists sim. exact Hd. }
  split; [|repeat split; vm_compute; reflexivity].
  destruct (decisions_ok before (FuzzyPlayer.init racket ball board))
    as (self & Hs & Hc).
  destruct (make_decision_stored self x_diff y_diff) as (sim & Hd & Hout).
  rewrite Hc in Hout. change (ctrl _) with FuzzyPlayer.rules in Hout.
  fold x y in Hout.
  destruct (fuzzy_player_never_silent x_diff y_diff) as (r & Hin & Hpos).
  fold x y in Hpos.
  pose proof (area_pos FuzzyPlayer.rules x y r Hin Hpos) as Ha.
  destruct (defuzz_cases FuzzyPlayer.rules x y) as [[Hz _]|[_ Hdef]]; [lra|].
  rewrite Hdef in Hout.
  change (area (aggregate FuzzyPlayer.rules x y)) with den in Ha, Hout.
  change (moment (aggregate FuzzyPlayer.rules x y)) with num in Hout.
  exists self. eexists. exists (num / den).
  split; [exact Hs|]. rewrite Hd, Hout. simpl.
  split; [reflexivity|]. split; [exact Hout|].
  split.
  { unfold infer. fold x y. rewrite Hdef. reflexivity. }
  split; [exists r; split; assumption|]. split; [exact Ha|].
  split; [field; lra|].
  assert (Hb : -10 * den <= num <= 10 * den).
  { apply weighted_sum_bounds.
    - intros u. apply aggregate_nonneg.
    - subst grid. repeat constructor; lia. }
  destruct Hb as [Hlo Hhi]. split.
  - apply Qle_shift_div_l; [exact Ha|exact Hlo].
  - apply Qle_shift_div_r; [exact Ha|exact Hhi].
Qed.

(** C8. The decision is antisymmetric in the horizontal offset: for every
    observation the velocity decided at [(x_diff, y_diff)] is, in exact
    arithmetic, the opposite of the velocity decided at
    [(- x_diff, y_diff)], whatever decisions each player took before. *)
Theorem make_decision_antisymmetric
    (racket racket' : Racket.t) (ball ball' : Ball.t) (board board' : Board.t)
    (before before' : list (Z * Z)) (x_diff y_diff : Z) :
  ∃ (self self' : FuzzyPlayer.t) (velocity velocity' : Q),
    FuzzyPlayer.decisions (FuzzyPlayer.init racket ball board) before = Ok self
    ∧ FuzzyPlayer.decisions (FuzzyPlayer.init racket' ball' board') before' = Ok self'
    ∧ value (FuzzyPlayer.make_decision self x_diff y_diff) = Some velocity
    ∧ value (FuzzyPlayer.make_decision self' (- x_diff) y_diff) = Some velocity'
    ∧ velocity == - velocity'
    ∧ infer FuzzyPlayer.rules x_diff y_diff
      == - infer FuzzyPlayer.rules (- x_diff) y_diff.
Proof.
  destruct (decisions_ok before (FuzzyPlayer.init racket ball board))
    as (self & Hs & Hc).
  destruct (decisions_ok before' (FuzzyPlayer.init racket' ball' board'))
    as (self' & Hs' & Hc').
  destruct (make_decision_infer self x_diff y_diff) as (sim & Hd & _).
  destruct (make_decision_infer self' (- x_diff) y_diff) as (sim' & Hd' & _).
  exists self, self'. eexists. eexists.
  split; [exact Hs|]. split; [exact Hs'|].
  rewrite Hd, Hd', Hc, Hc'. simpl.
  split; [reflexivity|]. split; [reflexivity|].
  pose proof (infer_mirror x_diff y_diff) as Hm.
  unfold ControlSystem. split; rewrite Hm; ring.
Qed.

(** C9. The decision is a function of the observation alone: after any
    two sequences of earlier decisions, on any inputs, the same player
    decides the same velocity for the same observation, namely the value
    of [infer] on the rule base. *)
Theorem make_decision_deterministic
    (racket : Racket.t) (ball : Ball.t) (board : Board.t)
    (before before' : list (Z * Z)) (x_diff y_diff : Z) :
  ∃ self self' : FuzzyPlayer.t,
    FuzzyPlayer.decisions (FuzzyPlayer.init racket ball board) before = Ok self
    ∧ FuzzyPlayer.decisions (FuzzyPlayer.init racket ball board) before' = Ok self'
    ∧ value (FuzzyPlayer.make_decision self x_diff y_diff)
      = value (FuzzyPlayer.make_decision self' x_diff y_diff)
    ∧ value (FuzzyPlayer.make_decision self x_diff y_diff)
      = Some (infer FuzzyPlayer.rules x_diff y_diff).
Proof.
  destruct (decisions_ok before (FuzzyPlayer.init racket ball board))
    as (self & Hs & Hc).
  destruct (decisions_ok before' (FuzzyPlayer.init racket ball board))
    as (self' & Hs' & Hc').
  destruct (make_decision_infer self x_diff y_diff) as (sim & Hd & _).
  destruct (make_decision_infer self' x_diff y_diff) as (sim' & Hd' & _).
  exists self, self'.
  split; [exact Hs|]. split; [exact Hs'|].
  rewrite Hd, Hd', Hc, Hc'. simpl. split; reflexivity.
Qed.

End DecisionStep.

(** * Further properties of the physics *)

Open Scope Z_scope.

Section BallMoves.

Import Ball.

Lemma move_walls_cases (b ba : Ball.t) (board : Board.t) :
  advance b = Some ba →
  move_walls b board =
    Some (let bx := if out_x ba board then bounce_x ba else ba in
          if out_y bx board then reset bx else bx).
Proof. intros Ha. unfold move_walls. rewrite Ha. reflexivity. Qed.

Lemma out_y_bounce_x (b : Ball.t) (board : Board.t) :
  out_y (bounce_x b) board = out_y b board.
Proof. reflexivity. Qed.

(** The side walls only turn the ball round: when advancing takes the
    ball across the left or the right bound while it stays between the
    top and the bottom, the horizontal speed is inverted and the ball is
    left where it went, outside the bound; no other field changes. *)
Theorem side_wall_inverts_speed_only
    (b ba : Ball.t) (board : Board.t)
    (Hadv : advance b = Some ba)
    (Hx : Rect.x (rect ba) < 0
          ∨ Board.get_width board - Rect.width (rect ba) < Rect.x (rect ba))
    (Hy : 0 <= Rect.y (rect ba)
          <= Board.get_height board - Rect.height (rect ba)) :
  move_walls b board = Some (bounce_x ba)
  ∧ rect (bounce_x ba) = rect ba
  ∧ x_speed (bounce_x ba) = pyneg (x_speed b)
  ∧ y_speed (bounce_x ba) = y_speed b
  ∧ color (bounce_x ba) = color b.
Proof.
  pose proof (advance_frame _ _ Hadv) as (_ & Hvx & Hvy & Hc & _).
  rewrite (move_walls_cases _ _ _ Hadv). cbv zeta.
  assert (Hox : out_x ba board = true).
  { unfold out_x. apply orb_true_iff.
    destruct Hx; [left|right]; apply Z.ltb_lt; assumption. }
  assert (Hoy : out_y (bounce_x ba) board = false).
  { rewrite out_y_bounce_x. unfold out_y. apply orb_false_iff.
    split; apply Z.ltb_ge; lia. }
  rewrite Hox, Hoy. simpl. rewrite Hvx, Hvy, Hc. repeat split.
Qed.

Lemma side_wall_inverts_speed_only_witness :
  let b := set_rect (Rect.mk 779 100 20 20) (Ball.default 400 200) in
  move_walls b (Board.mk 800 400)
  = Some (bounce_x (set_rect (Rect.mk 782 103 20 20) b)).
Proof.
  apply (side_wall_inverts_speed_only
           (set_rect (Rect.mk 779 100 20 20) (Ball.default 400 200))
           (set_rect (Rect.mk 782 103 20 20)
              (set_rect (Rect.mk 779 100 20 20) (Ball.default 400 200)))
           (Board.mk 800 400) eq_refl).
  - right. reflexivity.
  - simpl. lia.
Defined.

Lemma bounce_y_power_setup (b b' : Ball.t) :
  bounce_y_power b = Some b' → ball_setup b' = ball_setup b.
Proof.
  unfold bounce_y_power. simpl. intros H.
  destruct (valid_color (power_color (color b))); [|discriminate].
  destruct (pyscale (x_speed b)) as [vx|]; simpl in H; [|discriminate].
  destruct (pyscale (y_speed b)) as [vy|]; simpl in H; [|discriminate].
  injection H as <-. reflexivity.
Qed.

Lemma hit_setup (ticks : Z) (racket : Racket.t) (b b' : Ball.t) :
  hit ticks racket b = Some b' → ball_setup b' = ball_setup b.
Proof.
  unfold hit. destruct (edge_hit _ racket); intros H.
  - apply bounce_y_power_setup in H. exact H.
  - injection H as <-. reflexivity.
Qed.

Lemma move_rackets_setup (get_ticks : nat → Z) (args : list Racket.t) :
  ∀ (k : nat) (b b' : Ball.t),
    move_rackets get_ticks k b args = Some b' → ball_setup b' = ball_setup b.
Proof.
  induction args as [|racket args IH]; intros k b b' H.
  - injection H as <-. reflexivity.
  - rewrite move_rackets_cons in H.
    destruct (Rect.colliderect (rect b) (Racket.rect racket)).
    + destruct (hit (get_ticks k) racket b) as [b1|] eqn:Hh; simpl in H;
        [|discriminate].
      apply hit_setup in Hh. apply IH in H. congruence.
    + apply IH in H. exact H.
Qed.

Lemma advance_setup (b ba : Ball.t) :
  advance b = Some ba → ball_setup ba = ball_setup b.
Proof.
  unfold advance. intros H.
  destruct (pyround (x_speed b)) as [dx|]; simpl in H; [|discriminate].
  destruct (pyround (y_speed b)) as [dy|]; simpl in H; [|discriminate].
  injection H as <-. reflexivity.
Qed.

Lemma move_walls_setup (b b1 : Ball.t) (board : Board.t) :
  move_walls b board = Some b1 → ball_setup b1 = ball_setup b.
Proof.
  unfold move_walls. intros H.
  destruct (advance b) as [ba|] eqn:Ha; simpl in H; [|discriminate].
  injection H as <-. apply advance_setup in Ha. rewrite <- Ha.
  destruct (out_x ba board); destruct (out_y _ board); reflexivity.
Qed.

Lemma move_setup (b b' : Ball.t) (board : Board.t) (get_ticks : nat → Z)
    (args : list Racket.t) :
  move b board get_ticks args = Some b' → ball_setup b' = ball_setup b.
Proof.
  intros H. unfold move in H.
  destruct (move_walls b board) as [b1|] eqn:Hw; simpl in H; [|discriminate].
  apply move_walls_setup in Hw. rewrite <- Hw.
  destruct (_ <? _) in H.
  - injection H as <-. reflexivity.
  - apply (move_rackets_setup _ _ _ _ _ H).
Qed.

Lemma move_speeds (b b' : Ball.t) (board : Board.t) (get_ticks : nat → Z)
    (args : list Racket.t) :
  move b board get_ticks args = Some b' →
  (∃ dx dy : Z, pyround (x_speed b) = Some dx ∧ pyround (y_speed b) = Some dy).
Proof.
  intros H. unfold move, move_walls, advance in H.
  destruct (pyround (x_speed b)) as [dx|]; simpl in H; [|discriminate].
  destruct (pyround (y_speed b)) as [dy|]; simpl in H; [|discriminate].
  exists dx, dy. split; reflexivity.
Qed.

(** [move] never changes what the constructor of the ball fixed: the
    size of the ball and of its rect, the start position, the start speed
    and the start colour; and it only returns when both speeds round to
    an integer, that is, are neither infinite nor NaN. *)
Theorem ball_move_keeps_setup
    (b b' : Ball.t) (board : Board.t) (get_ticks : nat → Z)
    (args : list Racket.t) :
  move b board get_ticks args = Some b' →
  ball_setup b' = ball_setup b
  ∧ ∃ dx dy : Z, pyround (x_speed b) = Some dx ∧ pyround (y_speed b) = Some dy.
Proof.
  intros H. split; [apply (move_setup _ _ _ _ _ H)|apply (move_speeds _ _ _ _ _ H)].
Qed.

Lemma ball_move_keeps_setup_witness :
  ∃ b' : Ball.t,
    move (Ball.default 400 200) (Board.mk 800 400) (λ _, 1000)
      [Racket.default 400 380; Racket.default 400 0] = Some b'
    ∧ ball_setup b' = (20, 20, 20, 20, 400, 200, 3, (255, 10, 0)).
Proof.
  eexists. split; [vm_compute; reflexivity|].
  apply (ball_move_keeps_setup (Ball.default 400 200) _ (Board.mk 800 400)
           (λ _, 1000) [Racket.default 400 380; Racket.default 400 0]).
  vm_compute. reflexivity.
Defined.

Lemma move_walls_between (b b1 : Ball.t) (board : Board.t) :
  ball_between_rackets (reset b) board →
  move_walls b board = Some b1 → ball_between_rackets b1 board.
Proof.
  intros Hstart H. unfold move_walls in H.
  destruct (advance b) as [ba|] eqn:Ha; simpl in H; [|discriminate].
  injection H as <-.
  pose proof (advance_setup _ _ Ha) as Hs.
  set (bx := if out_x ba board then bounce_x ba else ba).
  assert (Hbx : rect bx = rect ba ∧ ball_setup bx = ball_setup ba).
  { subst bx. destruct (out_x ba board); split; reflexivity. }
  destruct Hbx as [Hr Hsx].
  destruct (out_y bx board) eqn:Hy.
  - unfold ball_between_rackets in *. simpl in *.
    unfold ball_setup in Hs, Hsx. simpl in Hs, Hsx.
    injection Hs as _ _ _ Hh _ Hsy _ _. injection Hsx as _ _ _ Hh' _ Hsy' _ _.
    rewrite Hsy', Hsy, Hh', Hh. exact Hstart.
  - unfold out_y in Hy. apply orb_false_iff in Hy as [H1 H2].
    apply Z.ltb_ge in H1, H2. unfold ball_between_rackets. lia.
Qed.

Lemma move_between (b b' : Ball.t) (board : Board.t) (get_ticks : nat → Z)
    (args : list Racket.t) :
  0 <= start_y b <= Board.get_height board - Rect.height (rect b) →
  move b board get_ticks args = Some b' →
  ball_between_rackets b' board.
Proof.
  intros Hstart H. unfold move in H.
  destruct (move_walls b board) as [b1|] eqn:Hw; simpl in H; [|discriminate].
  assert (Hb1 : ball_between_rackets b1 board).
  { apply (move_walls_between b); [exact Hstart|exact Hw]. }
  unfold ball_between_rackets.
  assert (rect b' = rect b1) as ->; [|exact Hb1].
  destruct (_ <? _) in H.
  - injection H as <-. reflexivity.
  - apply (move_rackets_rect _ _ _ _ _ H).
Qed.

(** The ball never ends a move above the top or below the bottom of the
    board: when its start position lies between them, so does its
    position after every move, whatever its speed. *)
Theorem ball_stays_between_top_and_bottom
    (b b' : Ball.t) (board : Board.t) (get_ticks : nat → Z)
    (args : list Racket.t)
    (Hstart : 0 <= start_y b
              <= Board.get_height board - Rect.height (rect b)) :
  move b board get_ticks args = Some b' →
  0 <= Rect.y (rect b') <= Board.get_height board - Rect.height (rect b').
Proof. apply move_between. exact Hstart. Qed.

Lemma ball_stays_between_top_and_bottom_witness :
  let b := set_y_speed (PyFloat 57.5%float)
             (set_rect (Rect.mk 100 370 20 20) (Ball.default 400 200)) in
  ∃ b' : Ball.t,
    move b (Board.mk 800 400) (λ _, 1000) [] = Some b'
    ∧ 0 <= Rect.y (rect b') <= 400 - Rect.height (rect b').
Proof.
  eexists. split; [vm_compute; reflexivity|].
  apply (ball_stays_between_top_and_bottom
           (set_y_speed (PyFloat 57.5%float)
              (set_rect (Rect.mk 100 370 20 20) (Ball.default 400 200)))
           _ (Board.mk 800 400) (λ _, 1000) []).
  - simpl. lia.
  - vm_compute. reflexivity.
Defined.

End BallMoves.

(** The green channel under repeated power bounces. *)

Lemma valid_color_iff (r g bl : Z) :
  Ball.valid_color (r, g, bl) = true
  ↔ 0 <= r <= 255 ∧ 0 <= g <= 255 ∧ 0 <= bl <= 255.
Proof.
  unfold Ball.valid_color. rewrite !andb_true_iff, !Z.leb_le. tauto.
Qed.

Lemma power_bounces_invariant (n : nat) (r g bl : Z) :
  ∀ b b' : Ball.t,
    Ball.color b = (r, g, bl) →
    Ball.valid_color (Ball.color b) = true →
    Nat.iter n (λ ob, ob ≫= Ball.bounce_y_power) (Some b) = Some b' →
    Ball.color b' = (r, Z.min (g + 10 * Z.of_nat n) 255, bl)
    ∧ Ball.valid_color (Ball.color b') = true
    ∧ (g + 10 * Z.of_nat n <= 255 ∨ (255 - g) mod 10 = 0).
Proof.
  induction n as [|n IH]; intros b b' Hc Hv H.
  - simpl in H. injection H as <-. rewrite Hc in Hv |- *.
    pose proof (proj1 (valid_color_iff r g bl) Hv) as (_ & Hg & _).
    split; [f_equal; f_equal; lia|]. split; [exact Hv|left; lia].
  - rewrite Nat2Z.inj_succ. simpl in H.
    destruct (Nat.iter n _ (Some b)) as [bn|] eqn:Hn; simpl in H; [|discriminate].
    destruct (IH _ _ Hc Hv Hn) as (Hcn & Hvn & Hon).
    pose proof (bounce_y_power_frame _ _ H) as (_ & _ & Hc' & _).
    assert (Hv' : Ball.valid_color (Ball.color b') = true).
    { rewrite Hc'. unfold Ball.bounce_y_power in H. simpl in H.
      destruct (Ball.valid_color (Ball.power_color (Ball.color bn)));
        [reflexivity|discriminate]. }
    rewrite Hcn in Hvn.
    pose proof (proj1 (valid_color_iff _ _ _) Hvn) as (Hr & Hgn & Hbl).
    assert (Hstep : Ball.color b'
              = (r, (if Z.min (g + 10 * Z.of_nat n) 255 <? 255
                     then Z.min (g + 10 * Z.of_nat n) 255 + 10
                     else Z.min (g + 10 * Z.of_nat n) 255), bl))
      by (rewrite Hc', Hcn; reflexivity).
    rewrite Hstep in Hv' |- *.
    apply valid_color_iff in Hv' as (_ & Hg' & _). revert Hg'.
    destruct (Z.ltb_spec (Z.min (g + 10 * Z.of_nat n) 255) 255) as [Hlt|Hge];
      intros Hg'.
    + split; [f_equal; f_equal; lia|].
      split; [apply valid_color_iff; lia|left; lia].
    + split; [f_equal; f_equal; lia|].
      split; [apply valid_color_iff; lia|].
      destruct Hon as [Hle|Hmod]; [|right; exact Hmod].
      right. replace (255 - g) with (Z.of_nat n * 10) by lia.
      apply Z_mod_mult.
Qed.

(** As long as successive power bounces return, that is, as long as the
    drawing accepts the colour, the red and the blue channel keep their
    values and the green channel is [min (g + 10 n) 255] after [n] of
    them; the green channel grows in steps of 10 without passing 255, or
    it reaches 255 exactly and stays there. From the default green of 10,
    which cannot reach 255 exactly, at most 24 power bounces in a row
    return. *)
Theorem power_bounces_colour
    (n : nat) (b b' : Ball.t) (r g bl : Z)
    (Hc : Ball.color b = (r, g, bl))
    (Hv : Ball.valid_color (Ball.color b) = true)
    (Hn : Nat.iter n (λ ob, ob ≫= Ball.bounce_y_power) (Some b) = Some b') :
  Ball.color b' = (r, Z.min (g + 10 * Z.of_nat n) 255, bl)
  ∧ Ball.valid_color (Ball.color b') = true
  ∧ (g + 10 * Z.of_nat n <= 255 ∨ (255 - g) mod 10 = 0)
  ∧ (g = 10 → (n ≤ 24)%nat).
Proof.
  destruct (power_bounces_invariant n r g bl b b' Hc Hv Hn) as (Hc' & Hv' & Hon).
  split; [exact Hc'|]. split; [exact Hv'|]. split; [exact Hon|].
  intros ->. destruct Hon as [Hle|Hmod]; [lia|discriminate].
Qed.

Lemma power_bounces_colour_witness :
  ∃ b' : Ball.t,
    Nat.iter 24 (λ ob, ob ≫= Ball.bounce_y_power) (Some (Ball.default 400 200))
      = Some b'
    ∧ Ball.color b' = (255, 250, 0).
Proof.
  eexists. split; [vm_compute; reflexivity|].
  apply (power_bounces_colour 24 (Ball.default 400 200) _ 255 10 0 eq_refl
           eq_refl).
  vm_compute. reflexivity.
Defined.

(** * Further properties of the paddles *)

Lemma racket_move_x (r : Racket.t) (x : Z) (board : Board.t) :
  Rect.x (Racket.rect (Racket.move r x board))
  = Rect.x (Racket.rect r) + Racket.delta r x board.
Proof. reflexivity. Qed.

Lemma racket_move_setup (r : Racket.t) (x : Z) (board : Board.t) :
  racket_setup (Racket.move r x board) = racket_setup r.
Proof. reflexivity. Qed.

Lemma racket_move_on_board (r : Racket.t) (x : Z) (board : Board.t) :
  racket_on_board r board → racket_on_board (Racket.move r x board) board.
Proof.
  unfold racket_on_board. intros Hin.
  change (Racket.width (Racket.move r x board)) with (Racket.width r).
  rewrite racket_move_x, racket_delta_clamp. cbv zeta.
  repeat case_ltb; simpl; lia.
Qed.

(** A move never takes the paddle away from its target, and it lands on a
    target that is within [max_speed] of the paddle and keeps the paddle
    on the board. *)
Theorem racket_move_approaches_target
    (r : Racket.t) (x : Z) (board : Board.t)
    (Hspeed : 0 <= Racket.max_speed r) :
  let x0 := Rect.x (Racket.rect r) in
  let x1 := Rect.x (Racket.rect (Racket.move r x board)) in
  Z.abs (x - x1) <= Z.abs (x - x0)
  ∧ (Z.abs (x - x0) <= Racket.max_speed r →
     0 <= x <= Board.get_width board - Racket.width r →
     x1 = x).
Proof.
  intros x0 x1. subst x1. rewrite racket_move_x, racket_delta_clamp.
  fold x0. cbv zeta.
  split; [|intros Hnear Hfit]; repeat case_ltb; simpl; lia.
Qed.

Lemma racket_move_approaches_target_witness :
  Rect.x (Racket.rect
            (Racket.move (Racket.default 400 0) 407 (Board.mk 800 400)))
  = 407.
Proof.
  apply (racket_move_approaches_target (Racket.default 400 0) 407
           (Board.mk 800 400)); simpl; lia.
Defined.

(** For a ball as wide as a quarter of the racket, as with the default
    sizes, a contact is an edge hit exactly when the ball sticks out
    beyond the left or the right end of the racket. *)
Theorem edge_hit_iff_ball_overhangs
    (b : Ball.t) (racket : Racket.t)
    (Hquarter : Rect.width (Ball.rect b)
                = Rect.width (Racket.rect racket) / 4) :
  Ball.edge_hit b racket = true
  ↔ Rect.left (Ball.rect b) < Rect.left (Racket.rect racket)
    ∨ Rect.right (Racket.rect racket) < Rect.right (Ball.rect b).
Proof.
  unfold Ball.edge_hit, Rect.left, Rect.right in *.
  rewrite orb_true_iff, !Z.ltb_lt. lia.
Qed.

Lemma edge_hit_iff_ball_overhangs_witness :
  Ball.edge_hit (Ball.default 405 365) (Racket.default 400 380) = false
  ∧ Ball.edge_hit (Ball.default 399 365) (Racket.default 400 380) = true.
Proof.
  split.
  - destruct (Ball.edge_hit (Ball.default 405 365) (Racket.default 400 380))
      eqn:He; [|reflexivity].
    apply (edge_hit_iff_ball_overhangs (Ball.default 405 365)
             (Racket.default 400 380) eq_refl) in He.
    vm_compute in He. destruct He; discriminate.
  - apply (edge_hit_iff_ball_overhangs (Ball.default 399 365)
             (Racket.default 400 380) eq_refl).
    left. reflexivity.
Defined.

(** The naive opponent steers the left end of its paddle, not its centre,
    to the centre of the ball. Once they coincide, [act] leaves the player
    as it is, the paddle's centre stays half a paddle width to the right
    of the ball's centre, and a ball whose right half is narrower than a
    quarter of the paddle meets the paddle with an edge hit. *)
Theorem naive_opponent_rests_off_centre
    (p : Player.t) (x_diff y_diff : Z)
    (Hspeed : 0 <= Racket.max_speed (Player.racket p))
    (Hrest : Rect.x (Racket.rect (Player.racket p))
             = Rect.centerx (Ball.rect (Player.ball p))) :
  NaiveOponent.act p x_diff y_diff = p
  ∧ Rect.centerx (Racket.rect (Player.racket p))
    - Rect.centerx (Ball.rect (Player.ball p))
    = Z.quot (Rect.width (Racket.rect (Player.racket p))) 2
  ∧ (Rect.width (Ball.rect (Player.ball p))
     - Z.quot (Rect.width (Ball.rect (Player.ball p))) 2
     < Rect.width (Racket.rect (Player.racket p)) / 4 →
     Ball.edge_hit (Player.ball p) (Player.racket p) = true).
Proof.
  split; [|split].
  - unfold NaiveOponent.act, Player.move. rewrite <- Hrest.
    assert (Hd : Racket.delta (Player.racket p)
                   (Rect.x (Racket.rect (Player.racket p))) (Player.board p) = 0).
    { rewrite racket_delta_clamp. cbv zeta. repeat case_ltb; simpl; lia. }
    destruct p as [b [w h c [x y rw rh] ms] bd]. simpl in *.
    unfold Racket.move. simpl. rewrite Hd.
    unfold Rect.set_x. simpl. rewrite Z.add_0_r. reflexivity.
  - unfold Rect.centerx at 1. rewrite Hrest. lia.
  - intros Hnarrow. unfold Ball.edge_hit. apply orb_true_iff. left.
    apply Z.ltb_lt. unfold Rect.right, Rect.left. rewrite Hrest.
    unfold Rect.centerx. lia.
Qed.

Lemma naive_opponent_rests_off_centre_witness :
  let p := Player.mk (Ball.default 390 20) (Racket.default 400 0)
             (Board.mk 800 400) in
  NaiveOponent.act p 40 (-20) = p
  ∧ Ball.edge_hit (Player.ball p) (Player.racket p) = true.
Proof.
  destruct (naive_opponent_rests_off_centre
              (Player.mk (Ball.default 390 20) (Racket.default 400 0)
                 (Board.mk 800 400)) 40 (-20))
    as (Hact & _ & Hedge).
  - simpl. lia.
  - reflexivity.
  - split; [exact Hact|]. apply Hedge. reflexivity.
Defined.

(** * The keyboard *)

Section Keyboard.

Import PongGame.

Lemma left_key_step (r : Racket.t) (board : Board.t) :
  0 <= Racket.max_speed r → racket_on_board r board →
  Rect.x (Racket.rect (Racket.move r 0 board))
  = Z.max 0 (Rect.x (Racket.rect r) - Racket.max_speed r).
Proof.
  unfold racket_on_board. intros Hs Hin.
  rewrite racket_move_x, racket_delta_clamp. cbv zeta.
  repeat case_ltb; simpl; lia.
Qed.

Lemma right_key_step (r : Racket.t) (board : Board.t) :
  0 <= Racket.max_speed r → 0 < Racket.width r → racket_on_board r board →
  Rect.x (Racket.rect (Racket.move r (Board.get_width board) board))
  = if Rect.x (Racket.rect r) + Racket.width r + Racket.max_speed r
       <=? Board.get_width board
    then Rect.x (Racket.rect r) + Racket.max_speed r
    else Rect.x (Racket.rect r).
Proof.
  unfold racket_on_board. intros Hs Hw Hin.
  rewrite racket_move_x, racket_delta_clamp. cbv zeta.
  destruct (Z.leb_spec (Rect.x (Racket.rect r) + Racket.width r + Racket.max_speed r)
              (Board.get_width board));
    repeat case_ltb; simpl; lia.
Qed.

Lemma handle_left (g : t) (es : list event) (ks : key → bool) :
  player g = Human → quit_requested es = false → ks K_LEFT = true →
  snd (handle_events g es ks)
  = set_player_paddle (Racket.move (player_paddle g) 0 (board g)) g.
Proof.
  intros Hh Hq Hk. unfold handle_events, player_move_manual.
  rewrite Hq, Hk, Hh. reflexivity.
Qed.

Lemma handle_right (g : t) (es : list event) (ks : key → bool) :
  player g = Human → quit_requested es = false →
  ks K_LEFT = false → ks K_RIGHT = true →
  snd (handle_events g es ks)
  = set_player_paddle
      (Racket.move (player_paddle g) (Board.get_width (board g)) (board g)) g.
Proof.
  intros Hh Hq Hl Hk. unfold handle_events, player_move_manual.
  rewrite Hq, Hl, Hk, Hh. reflexivity.
Qed.

(** Holding the left key takes a human player's paddle all the way to the
    left wall: after [k] frames with the key down and no quit event the
    paddle is at [max 0 (x - k * max_speed)]; nothing else in the game
    changes. *)
Theorem left_key_reaches_the_wall (frames : list frame) :
  ∀ g : t,
    player g = Human →
    0 <= Racket.max_speed (player_paddle g) →
    racket_on_board (player_paddle g) (board g) →
    Forall (λ f, quit_requested (events f) = false ∧ keys f K_LEFT = true)
           frames →
    Rect.x (Racket.rect (player_paddle (steer g frames)))
    = Z.max 0 (Rect.x (Racket.rect (player_paddle g))
               - Z.of_nat (length frames) * Racket.max_speed (player_paddle g))
    ∧ game_setup (steer g frames) = game_setup g
    ∧ ball (steer g frames) = ball g
    ∧ opponent_paddle (steer g frames) = opponent_paddle g.
Proof.
  induction frames as [|f frames IH]; intros g Hh Hs Hin Hf.
  - unfold steer, racket_on_board in *. simpl. repeat split. lia.
  - inversion Hf as [|? ? [Hq Hk] Hrest]; subst.
    unfold steer. simpl foldl. fold (steer (snd (handle_events g (events f) (keys f))) frames).
    rewrite (handle_left g _ _ Hh Hq Hk).
    set (g1 := set_player_paddle (Racket.move (player_paddle g) 0 (board g)) g).
    destruct (IH g1) as (Hx & Hsetup & Hball & Hopp); try assumption.
    { apply racket_move_on_board. exact Hin. }
    assert (Hx1 : Rect.x (Racket.rect (player_paddle g1))
                  = Z.max 0 (Rect.x (Racket.rect (player_paddle g))
                             - Racket.max_speed (player_paddle g)))
      by (apply left_key_step; assumption).
    rewrite Hx, Hsetup, Hball, Hopp, Hx1.
    change (Racket.max_speed (player_paddle g1))
      with (Racket.max_speed (player_paddle g)).
    simpl length. rewrite Nat2Z.inj_succ.
    split; [nia|]. repeat split.
Qed.

Lemma left_key_reaches_the_wall_witness :
  let g := init 800 400 Naive Human in
  let f := mkFrame [other_event] (λ k, match k with K_LEFT => true | _ => false end)
             (λ _, 0) in
  Rect.x (Racket.rect (player_paddle (steer g (replicate 45 f)))) = 0.
Proof.
  apply (left_key_reaches_the_wall
           (replicate 45
              (mkFrame [other_event]
                 (λ k, match k with K_LEFT => true | _ => false end) (λ _, 0)))
           (init 800 400 Naive Human)).
  - reflexivity.
  - simpl. lia.
  - vm_compute. split; discriminate.
  - apply Forall_replicate. split; reflexivity.
Defined.

(** Holding the right key does not take the paddle to the right wall: the
    paddle advances by [max_speed] while a whole step fits and then stays,
    so after [k] frames it is at [x + max_speed * min k q], where [q] is
    the number of whole steps that fit in the room to its right, and the
    gap to the wall that remains is what is left of that room modulo
    [max_speed]. *)
Theorem right_key_stops_short_of_the_wall (frames : list frame) :
  ∀ g : t,
    player g = Human →
    0 < Racket.max_speed (player_paddle g) →
    0 < Racket.width (player_paddle g) →
    racket_on_board (player_paddle g) (board g) →
    Forall (λ f, quit_requested (events f) = false
                 ∧ keys f K_LEFT = false ∧ keys f K_RIGHT = true) frames →
    let room := Board.get_width (board g) - Racket.width (player_paddle g)
                - Rect.x (Racket.rect (player_paddle g)) in
    Rect.x (Racket.rect (player_paddle (steer g frames)))
    = Rect.x (Racket.rect (player_paddle g))
      + Racket.max_speed (player_paddle g)
        * Z.min (Z.of_nat (length frames))
                (room / Racket.max_speed (player_paddle g))
    ∧ room mod Racket.max_speed (player_paddle g)
      <= Board.get_width (board g) - Racket.width (player_paddle g)
         - Rect.x (Racket.rect (player_paddle (steer g frames))).
Proof.
  induction frames as [|f frames IH]; intros g Hh Hs Hw Hin Hf room.
  - simpl. unfold racket_on_board in Hin.
    assert (0 <= room) by (subst room; lia).
    pose proof (Z.mod_pos_bound room _ Hs).
    pose proof (Z.div_mod room (Racket.max_speed (player_paddle g))).
    pose proof (Z.div_pos room _ H (Hs)).
    split; [lia|]. fold room. nia.
  - inversion Hf as [|? ? (Hq & Hl & Hk) Hrest]; subst.
    unfold steer. simpl foldl.
    fold (steer (snd (handle_events g (events f) (keys f))) frames).
    rewrite (handle_right g _ _ Hh Hq Hl Hk).
    set (r1 := Racket.move (player_paddle g) (Board.get_width (board g)) (board g)).
    set (g1 := set_player_paddle r1 g).
    assert (Hin1 : racket_on_board r1 (board g))
      by (apply racket_move_on_board; exact Hin).
    destruct (IH g1 Hh Hs Hw Hin1 Hrest) as (Hx & Hgap).
    rewrite Hx. clear IH.
    change (Racket.max_speed (player_paddle g1)) with (Racket.max_speed (player_paddle g)) in *.
    change (Racket.width (player_paddle g1)) with (Racket.width (player_paddle g)) in *.
    change (board g1) with (board g) in *.
    change (Rect.x (Racket.rect (player_paddle g1))) with (Rect.x (Racket.rect r1)) in *.
    assert (Hstep := right_key_step (player_paddle g) (board g) (Z.lt_le_incl _ _ Hs) Hw Hin).
    fold r1 in Hstep. unfold racket_on_board in Hin.
    set (ms := Racket.max_speed (player_paddle g)) in *.
    set (x0 := Rect.x (Racket.rect (player_paddle g))) in *.
    set (W := Board.get_width (board g)) in *.
    set (w := Racket.width (player_paddle g)) in *.
    assert (Hroom : 0 <= room) by (subst room; lia).
    simpl length. rewrite Nat2Z.inj_succ.
    destruct (Z.leb_spec (x0 + w + ms) W) as [Hfit|Hnofit].
    + rewrite Hstep in *.
      replace (W - w - (x0 + ms)) with (room - ms) in * by (subst room; lia).
      pose proof (Z.div_mod room ms ltac:(lia)) as Hdm.
      pose proof (Z.mod_pos_bound room ms Hs) as Hmb.
      assert (Hq' : (room - ms) / ms = room / ms - 1).
      { symmetry. apply (Z.div_unique _ _ _ (room mod ms)); [left; exact Hmb|lia]. }
      assert (Hm' : (room - ms) mod ms = room mod ms).
      { symmetry. apply (Z.mod_unique _ _ (room / ms - 1)); [left; exact Hmb|lia]. }
      rewrite Hq' in Hx. rewrite Hm' in Hgap.
      assert (1 <= room / ms) by (apply Z.div_le_lower_bound; subst room; lia).
      split; [lia|]. subst room. lia.
    + rewrite Hstep in *. fold room in Hx, Hgap |- *.
      assert (Hq0 : room / ms = 0) by (apply Z.div_small; subst room; lia).
      rewrite Hq0 in *. split; [lia|]. subst room. lia.
Qed.

Lemma right_key_stops_short_of_the_wall_witness :
  let g := mk (Board.mk 800 400) (Ball.default 400 200)
             (Racket.default 400 0) Naive (Racket.default 715 380) Human in
  let f := mkFrame [] (λ k, match k with K_RIGHT => true | _ => false end)
             (λ _, 0) in
  Rect.x (Racket.rect (player_paddle (steer g [f; f; f]))) = 715
  ∧ 5 <= 800 - 80 - Rect.x (Racket.rect (player_paddle (steer g [f; f; f]))).
Proof.
  apply (right_key_stops_short_of_the_wall
           (replicate 3
              (mkFrame [] (λ k, match k with K_RIGHT => true | _ => false end)
                 (λ _, 0)))
           (mk (Board.mk 800 400) (Ball.default 400 200)
              (Racket.default 400 0) Naive (Racket.default 715 380) Human)).
  - reflexivity.
  - reflexivity.
  - reflexivity.
  - vm_compute. split; discriminate.
  - apply Forall_replicate. repeat split.
Defined.

End Keyboard.

(** * The loop of the game *)

Section Loop.

Import PongGame.

Lemma handle_events_on_board (g : t) (es : list event) (ks : key → bool) :
  game_on_board g →
  game_on_board (snd (handle_events g es ks))
  ∧ game_setup (snd (handle_events g es ks)) = game_setup g
  ∧ ball (snd (handle_events g es ks)) = ball g.
Proof.
  intros (Hp & Ho & Hb).
  assert (Hmanual : ∀ x,
            game_on_board (player_move_manual g x)
            ∧ game_setup (player_move_manual g x) = game_setup g
            ∧ ball (player_move_manual g x) = ball g).
  { intros x. unfold player_move_manual, game_on_board.
    destruct (player g) eqn:Hpl; simpl.
    - split; [|split; reflexivity].
      split; [exact Hp|]. split; [exact Ho|exact Hb].
    - split; [|split; reflexivity].
      split; [|split; [exact Ho|exact Hb]].
      apply (racket_move_on_board (player_paddle g)). exact Hp. }
  assert (Hsame : game_on_board g ∧ game_setup g = game_setup g ∧ ball g = ball g).
  { split; [|split; reflexivity]. split; [exact Hp|]. split; [exact Ho|exact Hb]. }
  unfold handle_events.
  destruct (quit_requested es); [exact Hsame|].
  destruct (ks K_LEFT); [apply Hmanual|].
  destruct (ks K_RIGHT); [apply Hmanual|].
  exact Hsame.
Qed.

Lemma act_on_board (a : agent) (p : Player.t) (x_diff y_diff : Z) :
  racket_on_board (Player.racket p) (Player.board p) →
  racket_on_board (Player.racket (act a p x_diff y_diff)) (Player.board p)
  ∧ racket_setup (Player.racket (act a p x_diff y_diff))
    = racket_setup (Player.racket p).
Proof.
  intros Hin. destruct a; simpl; [|split; [exact Hin|reflexivity]].
  split; [|reflexivity]. apply racket_move_on_board. exact Hin.
Qed.

Lemma tick_on_board (g g' : t) (gt : nat → Z) :
  game_on_board g →
  0 <= Ball.start_y (ball g)
    <= Board.get_height (board g) - Rect.height (Ball.rect (ball g)) →
  tick g gt = Some g' →
  game_on_board g' ∧ game_setup g' = game_setup g.
Proof.
  intros (Hp & Ho & Hb) Hstart H. unfold tick in H.
  destruct (Ball.move (ball g) (board g) gt [player_paddle g; opponent_paddle g])
    as [b|] eqn:Hm; simpl in H; [|discriminate].
  injection H as <-.
  pose proof (move_setup _ _ _ _ _ Hm) as Hsetup.
  pose proof (move_between _ _ _ _ _ Hstart Hm) as Hbetween.
  unfold game_on_board, game_setup. simpl.
  destruct (act_on_board (oponent g) (Player.mk b (opponent_paddle g) (board g))
              (Rect.centerx (Racket.rect (opponent_paddle g))
               - Rect.centerx (Ball.rect b))
              (Rect.centery (Racket.rect (opponent_paddle g))
               - Rect.centery (Ball.rect b)) Ho) as (Ho' & Hso).
  destruct (act_on_board (player g) (Player.mk b (player_paddle g) (board g))
              (Rect.centerx (Racket.rect (player_paddle g))
               - Rect.centerx (Ball.rect b))
              (Rect.centery (Racket.rect (player_paddle g))
               - Rect.centery (Ball.rect b)) Hp) as (Hp' & Hsp).
  simpl in *. rewrite Hso, Hsp, Hsetup.
  split; [|reflexivity]. split; [exact Hp'|]. split; [exact Ho'|exact Hbetween].
Qed.

Lemma ball_setup_start (b b' : Ball.t) :
  ball_setup b' = ball_setup b →
  Ball.start_y b' = Ball.start_y b
  ∧ Rect.height (Ball.rect b') = Rect.height (Ball.rect b).
Proof.
  intros H. split.
  - exact (f_equal (λ s, snd (fst (fst s))) H).
  - exact (f_equal (λ s, snd (fst (fst (fst (fst s))))) H).
Qed.

Lemma game_setup_parts (g g' : t) :
  game_setup g' = game_setup g →
  board g' = board g ∧ ball_setup (ball g') = ball_setup (ball g).
Proof.
  intros H. split.
  - exact (f_equal (λ s, fst (fst (fst (fst (fst s))))) H).
  - exact (f_equal snd H).
Qed.

(** Throughout a run, whatever the events, the keys and the clock, both
    paddles stay between the side walls and the ball between the top and
    the bottom, provided the game starts so and the ball's start position
    lies between the top and the bottom; and the board, the agents, the
    rows, sizes and speed limits of the paddles and the start data of the
    ball stay what the constructors made them. *)
Theorem run_keeps_the_game_on_board (frames : list frame) :
  ∀ g g' : t,
    game_on_board g →
    0 <= Ball.start_y (ball g)
      <= Board.get_height (board g) - Rect.height (Ball.rect (ball g)) →
    run g frames = Some g' →
    game_on_board g' ∧ game_setup g' = game_setup g.
Proof.
  induction frames as [|f frames IH]; intros g g' Hon Hstart Hrun.
  - injection Hrun as <-. split; [exact Hon|reflexivity].
  - simpl in Hrun.
    destruct (handle_events_on_board g (events f) (keys f) Hon)
      as (Hon1 & Hsetup1 & Hball1).
    destruct (handle_events g (events f) (keys f)) as [quit g1].
    simpl in Hon1, Hsetup1, Hball1.
    destruct (game_setup_parts _ _ Hsetup1) as (Hboard1 & _).
    destruct quit.
    + injection Hrun as <-. split; assumption.
    + destruct (tick g1 (get_ticks f)) as [g2|] eqn:Ht; simpl in Hrun;
        [|discriminate].
      assert (Hstart1 : 0 <= Ball.start_y (ball g1)
                <= Board.get_height (board g1)
                   - Rect.height (Ball.rect (ball g1)))
        by (rewrite Hball1, Hboard1; exact Hstart).
      destruct (tick_on_board _ _ _ Hon1 Hstart1 Ht) as (Hon2 & Hsetup2).
      assert (Hstart2 : 0 <= Ball.start_y (ball g2)
                <= Board.get_height (board g2)
                   - Rect.height (Ball.rect (ball g2))).
      { destruct (game_setup_parts _ _ Hsetup2) as (Hb & Hbs).
        destruct (ball_setup_start _ _ Hbs) as (Hsy & Hh).
        rewrite Hb, Hh, Hsy. exact Hstart1. }
      destruct (IH _ _ Hon2 Hstart2 Hrun) as (Hon' & Hsetup').
      split; [exact Hon'|]. congruence.
Qed.

Lemma run_keeps_the_game_on_board_witness :
  let left := mkFrame [] (λ k, match k with K_LEFT => true | _ => false end)
                (λ k, 500 + Z.of_nat k) in
  let idle := mkFrame [other_event] (λ _, false) (λ k, 533 + Z.of_nat k) in
  let quit := mkFrame [KEYDOWN K_ESCAPE] (λ _, true) (λ _, 566) in
  ∃ g' : t,
    run (init 800 400 Naive Human) [left; idle; left; quit; idle] = Some g'
    ∧ game_on_board g'
    ∧ game_setup g' = game_setup (init 800 400 Naive Human).
Proof.
  eexists. split; [vm_compute; reflexivity|].
  apply (run_keeps_the_game_on_board
           [mkFrame [] (λ k, match k with K_LEFT => true | _ => false end)
              (λ k, 500 + Z.of_nat k);
            mkFrame [other_event] (λ _, false) (λ k, 533 + Z.of_nat k);
            mkFrame [] (λ k, match k with K_LEFT => true | _ => false end)
              (λ k, 500 + Z.of_nat k);
            mkFrame [KEYDOWN K_ESCAPE] (λ _, true) (λ _, 566);
            mkFrame [other_event] (λ _, false) (λ k, 533 + Z.of_nat k)]
           (init 800 400 Naive Human)).
  - vm_compute. repeat split; discriminate.
  - vm_compute. split; discriminate.
  - vm_compute. reflexivity.
Defined.

End Loop.

(** * The terms of the inputs as a partition *)

Open Scope Q_scope.

Lemma trimf_rising (a b c x : Q) :
  a < b → a <= x <= b → trimf (a, b, c) x == (x - a) / (b - a).
Proof.
  intros Hab [Hax Hxb].
  destruct (trimf_cases a b c x)
    as [(He & ->)|[(_ & _ & ->)|[(_ & _ & (H1 & _) & _)|(Hb & Hl & _ & ->)]]].
  - rewrite He. field. lra.
  - reflexivity.
  - lra.
  - assert (Hz : x - a == 0).
    { destruct (Qle_lt_or_eq _ _ Hax) as [Hlt|He]; [|lra].
      destruct (Qle_lt_or_eq _ _ Hxb) as [Hlt'|He']; [|contradiction].
      exfalso. apply Hl. split; assumption. }
    rewrite Hz. field. lra.
Qed.

Lemma trimf_falling (a b c x : Q) :
  b < c → b <= x <= c → trimf (a, b, c) x == (c - x) / (c - b).
Proof.
  intros Hbc [Hbx Hxc].
  destruct (trimf_cases a b c x)
    as [(He & ->)|[(_ & (_ & H2) & _)|[(_ & _ & _ & ->)|(Hb & _ & Hr & ->)]]].
  - rewrite He. field. lra.
  - lra.
  - reflexivity.
  - assert (Hz : c - x == 0).
    { destruct (Qle_lt_or_eq _ _ Hxc) as [Hlt|He]; [|lra].
      destruct (Qle_lt_or_eq _ _ Hbx) as [Hlt'|He'];
        [|exfalso; apply Hb; symmetry; exact He'].
      exfalso. apply Hr. split; assumption. }
    rewrite Hz. field. lra.
Qed.

Lemma trimf_outside (a b c x : Q) :
  a <= b → b <= c → (x <= a ∧ x < b) ∨ (c <= x ∧ b < x) → trimf (a, b, c) x == 0.
Proof.
  intros Hab Hbc Hx. rewrite trimf_zero; [reflexivity|assumption|assumption| |].
  - intros He. destruct Hx as [[_ H]|[_ H]]; lra.
  - destruct Hx as [[H _]|[H _]]; [left|right]; exact H.
Qed.

Lemma x_diff_partition (v : Q) : -15 <= v <= 15 → x_diff.coverage v == 1.
Proof.
  intros [Hlo Hhi]. unfold x_diff.coverage. simpl.
  change (- edge) with (-400). change (- middle_edge + 10) with (-20).
  change (- middle_edge / 2) with (-30 # 2). change (- middle_edge) with (-30).
  change (middle_edge / 2) with (30 # 2). change (middle_edge - 10) with 20.
  unfold edge, middle_edge.
  rewrite (trimf_outside (-400) (-400) (-20) v) by (try right; try split; lra).
  rewrite (trimf_outside 20 400 400 v) by (try left; try split; lra).
  destruct (Qlt_le_dec v 0) as [Hneg|Hpos].
  - rewrite (trimf_falling (-30) (-30 # 2) 0 v) by (try split; lra).
    rewrite (trimf_rising (-30 # 2) 0 (30 # 2) v) by (try split; lra).
    rewrite (trimf_outside 0 (30 # 2) 30 v) by (try left; try split; lra).
    field.
  - rewrite (trimf_outside (-30) (-30 # 2) 0 v) by (try right; try split; lra).
    rewrite (trimf_falling (-30 # 2) 0 (30 # 2) v) by (try split; lra).
    rewrite (trimf_rising 0 (30 # 2) 30 v) by (try split; lra).
    field.
Qed.

Lemma y_diff_partition (v : Q) : -100 <= v <= 100 → y_diff.coverage v == 1.
Proof.
  intros [Hlo Hhi]. unfold y_diff.coverage. simpl.
  destruct (Qlt_le_dec v 0) as [Hneg|Hpos].
  - rewrite (trimf_falling (-200) (-100) 0 v) by (try split; lra).
    rewrite (trimf_rising (-100) 0 100 v) by (try split; lra).
    rewrite (trimf_outside 0 100 200 v) by (try left; try split; lra).
    field.
  - rewrite (trimf_outside (-200) (-100) 0 v) by (try right; try split; lra).
    rewrite (trimf_falling (-100) 0 100 v) by (try split; lra).
    rewrite (trimf_rising 0 100 200 v) by (try split; lra).
    field.
Qed.

(** Between the peaks of their outer triangles the terms of each input
    form a partition of unity: the degrees of a horizontal offset between
    -15 and 15 in the terms of [x_diff] add up to exactly 1, and so do
    those of a vertical offset between -100 and 100 in the terms of
    [y_diff]; every degree lies between 0 and 1. *)
Theorem inner_terms_partition_unity :
  (∀ v : Q, -15 <= v <= 15 → x_diff.coverage v == 1)
  ∧ (∀ v : Q, -100 <= v <= 100 → y_diff.coverage v == 1)
  ∧ (∀ (t : x_diff.term) (v : Q), 0 <= trimf (x_diff.mf t) v <= 1)
  ∧ (∀ (t : y_diff.term) (v : Q), 0 <= trimf (y_diff.mf t) v <= 1).
Proof.
  split; [exact x_diff_partition|]. split; [exact y_diff_partition|].
  split; intros t v; apply trimf_bounds.
Qed.

Lemma inner_terms_partition_unity_witness :
  x_diff.coverage (-7) == 1 ∧ y_diff.coverage (135 # 2) == 1.
Proof.
  destruct inner_terms_partition_unity as (Hx & Hy & _).
  split; [apply Hx|apply Hy]; split; discriminate.
Defined.
